(** * ratelim: per-key rate limited round tripper and its registry

    A shallow embedding of the Go packages [syncmap] (the generic
    lock-protected map) and [ratelim] (origin keys, the per-key round
    tripper), with the properties of the specification proved about
    them.

    Conventions of the embedding.
    - A Go [map[K]V] is a [gmap K V]; indexing an absent key yields the
      zero value of [V] and [ok = false], as in Go.
    - Every method of [SyncMap] is written as the sequence of its
      critical sections.  The section that runs under [mux.Lock] is a
      definition of its own (suffix [_locked]), so that it can be
      stated for whatever state the map has when the lock is acquired.
    - [*rate.Limiter] is a pointer: [None] is nil, [Some a] is the
      address of a limiter object in the heap.  Comparison of pointers
      is comparison of addresses.
    - The collaborators outside of the repository (the limiter's
      [Wait], the wrapped [http.RoundTripper], the clock) are section
      variables. *)

From Stdlib Require Import ZArith String Ascii List Lia.
From stdpp Require Import base option list gmap fin_maps strings.

Open Scope Z_scope.

(** ** Package syncmap *)

Module syncmap.

Section SyncMap.

Context {K : Type} `{Countable K} {V : Type} `{EqDecision V}.

(** The zero value of [V], which Go returns when an absent key is read. *)
Variable zero : V.

(** [value, ok = m.wrapped[key]] *)
Definition index (m : gmap K V) (key : K) : V * bool :=
  match m !! key with
  | Some value => (value, true)
  | None => (zero, false)
  end.

(** [New]: an empty wrapped map. *)
Definition New : gmap K V := ∅.

(** [Load]: one read section, no mutation. *)
Definition Load (key : K) (m : gmap K V) : V * bool :=
  index m key.

(** [Swap]: one write section. *)
Definition Swap (key : K) (value : V) (m : gmap K V) : (V * bool) * gmap K V :=
  let '(previous, loaded) := index m key in
  ((previous, loaded), <[key := value]> m).

(** [Store] calls [Swap] and drops its results. *)
Definition Store (key : K) (value : V) (m : gmap K V) : gmap K V :=
  snd (Swap key value m).

(** The section of [LoadAndDelete] that runs under the write lock. *)
Definition LoadAndDelete_locked (key : K) (m : gmap K V) : (V * bool) * gmap K V :=
  let '(value, loaded) := index m key in
  ((value, loaded), delete key m).

(** [LoadAndDelete]: returns early when the first [Load] finds nothing. *)
Definition LoadAndDelete (key : K) (m : gmap K V) : (V * bool) * gmap K V :=
  let '(value, loaded) := Load key m in
  if negb loaded then ((value, loaded), m)
  else LoadAndDelete_locked key m.

(** [Delete] calls [LoadAndDelete] and drops its results. *)
Definition Delete (key : K) (m : gmap K V) : gmap K V :=
  snd (LoadAndDelete key m).

(** The section of [LoadOrStore] that runs under the write lock: the
    key is looked up again before the value is stored. *)
Definition LoadOrStore_locked (key : K) (value : V) (m : gmap K V) : (V * bool) * gmap K V :=
  let '(actual, loaded) := index m key in
  if loaded then ((actual, loaded), m)
  else ((value, false), <[key := value]> m).

Definition LoadOrStore (key : K) (value : V) (m : gmap K V) : (V * bool) * gmap K V :=
  let '(actual, loaded) := Load key m in
  if loaded then ((actual, loaded), m)
  else LoadOrStore_locked key value m.

(** [any(value) != any(old)] *)
Definition differs (value old : V) : bool :=
  bool_decide (value ≠ old).

Definition CompareAndSwap_locked (key : K) (old new : V) (m : gmap K V) : bool * gmap K V :=
  let '(value, _) := index m key in
  if differs value old then (false, m)
  else (true, <[key := new]> m).

(** [CompareAndSwap] ignores the [ok] result of both lookups. *)
Definition CompareAndSwap (key : K) (old new : V) (m : gmap K V) : bool * gmap K V :=
  let '(value, _) := Load key m in
  if differs value old then (false, m)
  else CompareAndSwap_locked key old new m.

Definition CompareAndDelete_locked (key : K) (old : V) (m : gmap K V) : bool * gmap K V :=
  let '(value, loaded) := index m key in
  if negb loaded || differs value old then (false, m)
  else (true, delete key m).

Definition CompareAndDelete (key : K) (old : V) (m : gmap K V) : bool * gmap K V :=
  let '(value, loaded) := Load key m in
  if negb loaded || differs value old then (false, m)
  else CompareAndDelete_locked key old m.

(** The keys of the map in the canonical order of [gmap]. *)
Definition map_keys (m : gmap K V) : list K :=
  (map_to_list m).*1.

(** Go iterates over a map in an order chosen by the runtime.  The
    choice is the argument [order]: it is applied to the canonical key
    list and, being a permutation of it ([iteration_order]), decides
    in which order [Keys] appends the keys to its result. *)
Definition iteration_order (order : list K → list K) : Prop :=
  ∀ l, order l ≡ₚ l.

Definition Keys (order : list K → list K) (m : gmap K V) : list K :=
  order (map_keys m).

(** One call of the function given to [Range].  The function may call
    any method of the map, so it is a state transformer on the wrapped
    map; its boolean result tells [Range] whether to go on. *)
Definition visitor : Type := K → V → gmap K V → bool * gmap K V.

(** What the loop of [Range] does with one key of its snapshot: the
    key was no longer in the map [m] ([Skipped]), or the visitor was
    called on the key and the value just loaded from [m] and answered
    [continue] ([Visited]). *)
Inductive event : Type :=
  | Skipped (key : K) (m : gmap K V)
  | Visited (key : K) (value : V) (m : gmap K V) (continue : bool).

Definition event_key (e : event) : K :=
  match e with
  | Skipped key _ => key
  | Visited key _ _ _ => key
  end.

Definition event_map (e : event) : gmap K V :=
  match e with
  | Skipped _ m => m
  | Visited _ _ m _ => m
  end.

(** The visitor answered [false]. *)
Definition stops (e : event) : bool :=
  match e with
  | Skipped _ _ => false
  | Visited _ _ _ continue => negb continue
  end.

(** The loop of [Range] over the key snapshot [keys].  The result is
    the log of the loop, one event per key that it reached, and the
    final map. *)
Fixpoint Range_loop (f : visitor) (keys : list K) (m : gmap K V) : list event * gmap K V :=
  match keys with
  | [] => ([], m)
  | k :: rest =>
      let '(v, ok) := Load k m in
      if negb ok then
        let '(events, m') := Range_loop f rest m in
        (Skipped k m :: events, m')
      else
        let '(continue, m') := f k v m in
        if negb continue then ([Visited k v m continue], m')
        else
          let '(events, m'') := Range_loop f rest m' in
          (Visited k v m continue :: events, m'')
  end.

Definition Range (order : list K → list K) (f : visitor) (m : gmap K V) : list event * gmap K V :=
  Range_loop f (Keys order m) m.

(** An event of the log agrees with the map it names: a skipped key
    is absent from it, a visited key is bound in it to the value given
    to the visitor, and [continue] is what the visitor answers on it. *)
Definition faithful (f : visitor) (e : event) : Prop :=
  match e with
  | Skipped k m => m !! k = None
  | Visited k v m continue => m !! k = Some v ∧ (f k v m).1 = continue
  end.

(** The map that an event leaves behind. *)
Definition after (f : visitor) (e : event) : gmap K V :=
  match e with
  | Skipped _ m => m
  | Visited k v m _ => (f k v m).2
  end.

(** The maps of a log follow one another: the first event sees [m],
    each next event sees the map the previous one left behind, and the
    last one leaves [m']. *)
Fixpoint chained (f : visitor) (m : gmap K V) (events : list event) (m' : gmap K V) : Prop :=
  match events with
  | [] => m' = m
  | e :: rest => event_map e = m ∧ chained f (after f e) rest m'
  end.

(** [Clear]: the wrapped map is replaced by a new empty one. *)
Definition Clear (m : gmap K V) : gmap K V := ∅.

(** [Call]: [f] runs on the wrapped map under the write lock. *)
Definition Call (f : gmap K V → gmap K V) (m : gmap K V) : gmap K V :=
  f m.

(** *** The methods as operations of a step function

    A client of the map is a sequence of method calls.  [op] names a
    call with its arguments, [result] is what the call returns and
    [exec] runs it on the wrapped map. *)

Inductive op : Type :=
  | OLoad (key : K)
  | OStore (key : K) (value : V)
  | OSwap (key : K) (value : V)
  | ODelete (key : K)
  | OLoadAndDelete (key : K)
  | OLoadOrStore (key : K) (value : V)
  | OCompareAndSwap (key : K) (old new : V)
  | OCompareAndDelete (key : K) (old : V)
  | ORange (order : list K → list K) (f : visitor)
  | OKeys (order : list K → list K)
  | OClear
  | OCall (f : gmap K V → gmap K V).

Inductive result : Type :=
  | RNone
  | RValue (value : V) (ok : bool)
  | RBool (b : bool)
  | RKeys (keys : list K)
  | REvents (events : list event).

Definition exec (o : op) (m : gmap K V) : result * gmap K V :=
  match o with
  | OLoad key => let '(value, ok) := Load key m in (RValue value ok, m)
  | OStore key value => (RNone, Store key value m)
  | OSwap key value =>
      let '((previous, loaded), m') := Swap key value m in (RValue previous loaded, m')
  | ODelete key => (RNone, Delete key m)
  | OLoadAndDelete key =>
      let '((value, loaded), m') := LoadAndDelete key m in (RValue value loaded, m')
  | OLoadOrStore key value =>
      let '((actual, loaded), m') := LoadOrStore key value m in (RValue actual loaded, m')
  | OCompareAndSwap key old new =>
      let '(b, m') := CompareAndSwap key old new m in (RBool b, m')
  | OCompareAndDelete key old =>
      let '(b, m') := CompareAndDelete key old m in (RBool b, m')
  | ORange order f => let '(events, m') := Range order f m in (REvents events, m')
  | OKeys order => (RKeys (Keys order m), m)
  | OClear => (RNone, Clear m)
  | OCall f => (RNone, Call f m)
  end.

(** [keeps key a o]: the call [o] is not one of those that explicitly
    overwrite or remove the entry of [key], which holds [a], or clear
    the map.  A compare-and-swap or compare-and-delete of [key] keeps
    it when the value it compares with is not [a]; a function handed
    to [Range] or [Call] keeps it when it leaves the entry of [key] as
    it finds it. *)
Definition keeps (key : K) (a : V) (o : op) : Prop :=
  match o with
  | OLoad _ | OLoadOrStore _ _ | OKeys _ => True
  | OStore k _ | OSwap k _ | ODelete k | OLoadAndDelete k => k ≠ key
  | OCompareAndSwap k old _ | OCompareAndDelete k old => k ≠ key ∨ old ≠ a
  | OClear => False
  | ORange _ f => ∀ k v m, (f k v m).2 !! key = m !! key
  | OCall f => ∀ m, f m !! key = m !! key
  end.

(** The key that a call works on, for the calls that name one. *)
Definition op_key (o : op) : option K :=
  match o with
  | OLoad k | OStore k _ | OSwap k _ | ODelete k | OLoadAndDelete k => Some k
  | OLoadOrStore k _ | OCompareAndSwap k _ _ | OCompareAndDelete k _ => Some k
  | ORange _ _ | OKeys _ | OClear | OCall _ => None
  end.

(** The key and value of a call of the visitor. *)
Definition visited (e : event) : option (K * V) :=
  match e with
  | Skipped _ _ => None
  | Visited k v _ _ => Some (k, v)
  end.

(** *** Goroutines racing through [LoadOrStore]

    Several goroutines call [LoadOrStore] on the same key.  Each call
    is at most two critical sections: the lookup under the read lock
    ([Fast]), and, when that finds nothing, the section under the
    write lock ([Locked], with the value the goroutine brought).  The
    locks make the sections of all the goroutines happen one after the
    other, in some order: a schedule is the list of these sections.
    A section yields the result of its call when the call returns in
    it, and nothing when the call goes on to take the write lock. *)
Inductive racer : Type :=
  | Fast
  | Locked (value : V).

Definition race_section (key : K) (s : racer) (m : gmap K V) : option (V * bool) * gmap K V :=
  match s with
  | Fast =>
      let '(actual, loaded) := Load key m in
      if loaded then (Some (actual, loaded), m) else (None, m)
  | Locked value =>
      let '(r, m') := LoadOrStore_locked key value m in (Some r, m')
  end.

Fixpoint race (key : K) (schedule : list racer) (m : gmap K V) : list (V * bool) * gmap K V :=
  match schedule with
  | [] => ([], m)
  | s :: rest =>
      let '(r, m') := race_section key s m in
      let '(results, m'') := race key rest m' in
      (match r with Some x => x :: results | None => results end, m'')
  end.

End SyncMap.

Arguments op K {_ _} V : assert.
Arguments result K {_ _} V : assert.
Arguments event K {_ _} V : assert.
Arguments visitor K {_ _} V : assert.
Arguments racer : clear implicits.

End syncmap.

(** ** Package ratelim *)

Module ratelim.

(** *** Origin keys *)

(** A [*url.URL], seen through the accessors that the package calls on
    it: the field [Scheme], the results of [Hostname()] and [Port()],
    and the text that [String()] renders. *)
Record URL : Type := mkURL {
  Scheme : string;
  Hostname : string;
  Port : string;
  Rendered : string
}.

(** [strings.TrimLeft(s, cutset)] for a cutset of ASCII characters. *)
Definition in_cutset (c : ascii) (cutset : string) : bool :=
  existsb (Ascii.eqb c) (list_ascii_of_string cutset).

Fixpoint TrimLeft (s cutset : string) : string :=
  match s with
  | EmptyString => EmptyString
  | String c rest => if in_cutset c cutset then TrimLeft rest cutset else s
  end.

(** The map literal of conventional ports inside [Origin]. *)
Definition defaultPorts : gmap string string :=
  {[ "http" := "80"; "https" := "443" ]}%string.

(** A run of [n] zeros, as in the port of [http://host:00080/]. *)
Fixpoint zeros (n : nat) : string :=
  match n with
  | O => EmptyString
  | S n' => String "0" (zeros n')
  end.

Section Origin.

(** [strings.ToLower], of the Go standard library. *)
Variable ToLower : string → string.

Definition Origin (url : URL) : string :=
  let host := ToLower (Hostname url) in
  let port := TrimLeft (Port url) "0" in
  if String.eqb port "" then
    (Scheme url ++ "://" ++ host)%string
  else
    match defaultPorts !! Scheme url with
    | Some defaultPort =>
        if String.eqb port defaultPort then (Scheme url ++ "://" ++ host)%string
        else (Scheme url ++ "://" ++ host ++ ":" ++ port)%string
    | None => (Scheme url ++ "://" ++ host ++ ":" ++ port)%string
    end.

(** The origin key in the words of the specification: scheme, lower
    cased host, and the explicit port with its leading zeros stripped,
    left out when nothing remains of it or when it is the conventional
    port of the scheme. *)
Fixpoint strip_leading_zeros (port : string) : string :=
  match port with
  | EmptyString => EmptyString
  | String c rest => if Ascii.eqb c "0" then strip_leading_zeros rest else port
  end.

Definition conventional_port (scheme : string) : option string :=
  if String.eqb scheme "http" then Some "80"%string
  else if String.eqb scheme "https" then Some "443"%string
  else None.

Definition port_shown (url : URL) : Prop :=
  strip_leading_zeros (Port url) ≠ EmptyString ∧
  conventional_port (Scheme url) ≠ Some (strip_leading_zeros (Port url)).

Definition origin_key (url : URL) : string :=
  if decide (port_shown url)
  then (Scheme url ++ "://" ++ ToLower (Hostname url) ++ ":"
          ++ strip_leading_zeros (Port url))%string
  else (Scheme url ++ "://" ++ ToLower (Hostname url))%string.

End Origin.

(** [strings.ToLower] on ASCII text, for running [Origin] on examples. *)
Definition ascii_lower (c : ascii) : ascii :=
  let n := nat_of_ascii c in
  if ((65 <=? n)%nat && (n <=? 90)%nat)%bool then ascii_of_nat (n + 32) else c.

Fixpoint ascii_ToLower (s : string) : string :=
  match s with
  | EmptyString => EmptyString
  | String c rest => String (ascii_lower c) (ascii_ToLower rest)
  end.

(** *** The per-key round tripper *)

(** An [*http.Request]: the fields and accessors that [RoundTrip]
    reads.  [Ctx] stands for the [context.Context] of the request. *)
Record Request : Type := mkRequest {
  Method : string;
  Url : URL;
  Ctx : nat
}.

Definition TargetOrigin (ToLower : string → string) (r : Request) : string :=
  Origin ToLower (Url r).

(** A [*rate.Limiter]: nil or the address of a limiter object. *)
Definition LimiterPtr : Type := option nat.

(** Where a [*log.Logger] writes: [io.Discard] or a real sink. *)
Inductive Writer : Type :=
  | Discard
  | Sink (id : nat).

(** [time.Duration] is a signed 64-bit count of nanoseconds. *)
Definition minDuration : Z := - 2 ^ 63.
Definition maxDuration : Z := 2 ^ 63 - 1.

(** [time.Since(start)] read at clock value [now]: the difference of
    the two monotonic readings, saturated to the range of a Duration. *)
Definition Since (start now : Z) : Z :=
  Z.max minDuration (Z.min maxDuration (now - start)).

(** [total - wait] on [time.Duration]: 64-bit subtraction. *)
Definition Duration_sub (a b : Z) : Z :=
  (a - b + 2 ^ 63) mod 2 ^ 64 - 2 ^ 63.

(** [d.Milliseconds()]: integer division truncating towards zero. *)
Definition Milliseconds (d : Z) : Z :=
  Z.quot d 1000000.

Section PerKeyRoundTripper.

Context {K : Type} `{Countable K}.

(** [rate.Limit], the state of a [rate.Limiter], [http.Response] and
    [error] values are opaque to this package. *)
Context {Limit LimiterState Response Error : Type}.

(** [rate.NewLimiter(limit, burst)]. *)
Variable NewLimiter : Limit → Z → LimiterState.

(** [limiter.Wait(ctx)] at clock value [now]: nil or an error, the new
    state of that limiter and the clock value on return.  It reaches
    neither the registry nor the transport nor the logger. *)
Variable Wait : LimiterState → nat → Z → option Error * LimiterState * Z.

(** The wrapped [http.RoundTripper]: response and error for a request
    sent at clock value [now], and the clock value on return. *)
Variable Transport : Request → Z → (option Response * option Error) * Z.

(** The [keyFunc] given to [NewPerKeyRoundTripper]. *)
Variable keyFunc : Request → K.

(** The line that [RoundTrip] logs.  The format string prints the
    fields in this order; the leading [%T] is the constant type name. *)
Record TraceRecord : Type := mkTrace {
  trace_key : K;
  trace_wait : Z;
  trace_resp : Z;
  trace_total : Z;
  trace_method : string;
  trace_url : string
}.

(** The struct [PerKeyRoundTripper] together with what its methods
    act on: the limiter objects that the pointers of [limiters] refer
    to, the clock, the requests handed to the wrapped round tripper
    and the records written through [Logger]. *)
Record State : Type := mkState {
  defaultLimit : Limit;
  defaultBurst : Z;
  limiters : gmap K LimiterPtr;
  Logger : option Writer;
  heap : list LimiterState;
  clock : Z;
  sent : list Request;
  logged : list TraceRecord
}.

Definition NewPerKeyRoundTripper (limit : Limit) (burst : Z) (now : Z) : State :=
  mkState limit burst syncmap.New None [] now [] [].

Definition LimiterDefaults (t : State) : Limit * Z :=
  (defaultLimit t, defaultBurst t).

Definition SetLimiterDefaults (limit : Limit) (burst : Z) (t : State) : State :=
  mkState limit burst (limiters t) (Logger t) (heap t) (clock t) (sent t) (logged t).

Definition Key (req : Request) : K :=
  keyFunc req.

(** [Limiter]: the arguments of [LoadOrStore] are evaluated first, so
    a new limiter is allocated on every call, at the next free
    address, whether or not it ends up in the registry. *)
Definition Limiter (req : Request) (t : State) : LimiterPtr * State :=
  let '(limit, burst) := LimiterDefaults t in
  let fresh : LimiterPtr := Some (length (heap t)) in
  let heap' := heap t ++ [NewLimiter limit burst] in
  let '((limiter, _), limiters') := syncmap.LoadOrStore None (Key req) fresh (limiters t) in
  (limiter,
   mkState (defaultLimit t) (defaultBurst t) limiters' (Logger t) heap' (clock t) (sent t) (logged t)).

Definition Limiters (t : State) : gmap K LimiterPtr :=
  limiters t.

(** [limiter.Wait(req.Context())] on the object that [limiter] points
    to.  Calling the method on nil or on a dangling address panics:
    the result is [None]. *)
Definition wait_on (limiter : LimiterPtr) (req : Request) (t : State)
  : option (option Error * list LimiterState * Z) :=
  match limiter with
  | None => None
  | Some a =>
      match heap t !! a with
      | None => None
      | Some l =>
          let '(err, l', now) := Wait l (Ctx req) (clock t) in
          Some (err, <[a := l']> (heap t), now)
      end
  end.

(** The deferred function of [RoundTrip], run at clock value [now]. *)
Definition log_trace (req : Request) (start wait now : Z) (logger : option Writer)
    (logged : list TraceRecord) : list TraceRecord :=
  match logger with
  | None => logged
  | Some Discard => logged
  | Some (Sink _) =>
      let total := Since start now in
      logged ++ [mkTrace (Key req) (Milliseconds wait)
                   (Milliseconds (Duration_sub total wait)) (Milliseconds total)
                   (Method req) (Rendered (Url req))]
  end.

(** [RoundTrip]; [None] when the call panics. *)
Definition RoundTrip (req : Request) (t : State)
  : option ((option Response * option Error) * State) :=
  let '(limiter, t1) := Limiter req t in
  let start := clock t1 in
  match wait_on limiter req t1 with
  | None => None
  | Some (Some err, heap2, now2) =>
      Some ((None, Some err),
            mkState (defaultLimit t1) (defaultBurst t1) (limiters t1) (Logger t1)
              heap2 now2 (sent t1) (logged t1))
  | Some (None, heap2, now2) =>
      let wait := Since start now2 in
      let '(answer, now3) := Transport req now2 in
      Some (answer,
            mkState (defaultLimit t1) (defaultBurst t1) (limiters t1) (Logger t1)
              heap2 now3 (sent t1 ++ [req])
              (log_trace req start wait now3 (Logger t1) (logged t1)))
  end.

(** *** Calls on a round tripper as a step function *)

Inductive call : Type :=
  | CMap (o : syncmap.op K LimiterPtr)
  | CLimiter (req : Request)
  | CLimiterDefaults
  | CSetLimiterDefaults (limit : Limit) (burst : Z)
  | CSetLogger (logger : option Writer)
  | CRoundTrip (req : Request).

Inductive answer : Type :=
  | AMap (r : syncmap.result K LimiterPtr)
  | ALimiter (limiter : LimiterPtr)
  | ADefaults (limit : Limit) (burst : Z)
  | ANone
  | AResponse (resp : option Response) (err : option Error)
  | APanic.

Definition step (c : call) (t : State) : answer * State :=
  match c with
  | CMap o =>
      let '(r, limiters') := syncmap.exec None o (Limiters t) in
      (AMap r,
       mkState (defaultLimit t) (defaultBurst t) limiters' (Logger t)
         (heap t) (clock t) (sent t) (logged t))
  | CLimiter req => let '(limiter, t') := Limiter req t in (ALimiter limiter, t')
  | CLimiterDefaults => let '(limit, burst) := LimiterDefaults t in (ADefaults limit burst, t)
  | CSetLimiterDefaults limit burst => (ANone, SetLimiterDefaults limit burst t)
  | CSetLogger logger =>
      (ANone,
       mkState (defaultLimit t) (defaultBurst t) (limiters t) logger
         (heap t) (clock t) (sent t) (logged t))
  | CRoundTrip req =>
      match RoundTrip req t with
      | Some ((resp, err), t') => (AResponse resp err, t')
      | None => (APanic, t)
      end
  end.

Fixpoint run (cs : list call) (t : State) : list answer * State :=
  match cs with
  | [] => ([], t)
  | c :: rest =>
      let '(a, t') := step c t in
      let '(answers, t'') := run rest t' in
      (a :: answers, t'')
  end.

(** A call keeps the entry of [key], which holds [a], unless it is a
    map call that overwrites or removes it or clears the map. *)
Definition keeps (key : K) (a : LimiterPtr) (c : call) : Prop :=
  match c with
  | CMap o => syncmap.keeps key a o
  | _ => True
  end.

(** The calls that get or create the limiter of [key]. *)
Definition get_or_create (key : K) (c : call) : Prop :=
  match c with
  | CMap (syncmap.OLoadOrStore k _) => k = key
  | CLimiter req => Key req = key
  | _ => False
  end.

(** The calls that look up the limiter of [key]. *)
Definition reads (key : K) (c : call) : Prop :=
  match c with
  | CMap (syncmap.OLoad k) => k = key
  | CMap (syncmap.OLoadOrStore k _) => k = key
  | CLimiter req => Key req = key
  | _ => False
  end.

(** The limiter that a call hands back, if it hands one back. *)
Definition returned (a : answer) : option LimiterPtr :=
  match a with
  | AMap (syncmap.RValue value _) => Some value
  | ALimiter limiter => Some limiter
  | _ => None
  end.

(** The calls through which no pointer of the caller's gets into the
    registry: the methods of the round tripper itself and the methods
    of the map that read or remove. *)
Definition plain (c : call) : Prop :=
  match c with
  | CMap (syncmap.OLoad _) | CMap (syncmap.OKeys _) | CMap syncmap.OClear => True
  | CMap (syncmap.ODelete _) | CMap (syncmap.OLoadAndDelete _) => True
  | CMap (syncmap.OCompareAndDelete _ _) => True
  | CMap _ => False
  | _ => True
  end.

(** Every registered limiter is a limiter object of the heap, and no
    two keys share one. *)
Definition well_formed (t : State) : Prop :=
  (∀ k p, limiters t !! k = Some p → ∃ a, p = Some a ∧ (a < length (heap t))%nat) ∧
  (∀ k1 k2 p, limiters t !! k1 = Some p → limiters t !! k2 = Some p → k1 = k2).

End PerKeyRoundTripper.

End ratelim.

(** ** A round tripper to run

    [PerOriginRoundTripper] with simple stand-ins for the collaborators
    outside of the repository, for running the definitions above on
    examples: a limiter state is its limit and burst, [Wait] fails at
    once on the cancelled context [0] and otherwise takes 200ms, and
    the transport answers status 200 after 500ms. *)

Module example.

Import ratelim.

Definition NewLimiter (limit burst : Z) : Z * Z := (limit, burst).

Definition Wait (l : Z * Z) (ctx : nat) (now : Z) : option string * (Z * Z) * Z :=
  match ctx with
  | O => (Some "context canceled"%string, l, now)
  | S _ => (None, l, now + 200000000)
  end.

Definition Transport (req : Request) (now : Z) : (option Z * option string) * Z :=
  ((Some 200, None), now + 500000000).

Definition keyFunc : Request → string := TargetOrigin ascii_ToLower.

Definition get (ctx : nat) (rendered : string) (host port : string) : Request :=
  mkRequest "GET" (mkURL "http" host port rendered) ctx.

Definition first : Request := get 1 "http://Example.COM:0080/1" "Example.COM" "0080".
Definition second : Request := get 1 "http://example.com/2" "example.com" "".
Definition cancelled : Request := get 0 "http://example.com/3" "example.com" "".
Definition other : Request := get 1 "http://example.org:8080/" "example.org" "8080".

(** A round tripper with limit 5 and burst 1, created at clock 0, that
    logs to a real sink. *)
Definition fresh : @State string _ _ Z (Z * Z) :=
  mkState 5 1 syncmap.New (Some (Sink 1)) [] 0 [] [].

(** A visitor that deletes the key after the one it is given. *)
Definition delete_next : syncmap.visitor nat nat :=
  λ k v m, (true, delete (S k) m).

Definition numbers : gmap nat nat := {[ 1%nat := 10%nat; 2%nat := 20%nat; 3%nat := 30%nat ]}.

(** Calls that leave the limiter of [first] alone. *)
Definition traffic : list (@call string _ _ Z) :=
  [ CSetLimiterDefaults 10 2;
    CMap (syncmap.OStore "http://example.org"%string (Some 7%nat));
    CRoundTrip other;
    CMap (syncmap.OCompareAndSwap "http://example.net"%string None (Some 9%nat));
    CMap (syncmap.OCompareAndDelete "http://example.com"%string (Some 7%nat));
    CMap (syncmap.ODelete "http://example.org:8080"%string);
    CRoundTrip cancelled;
    CLimiter second ].

(** Calls of the round tripper's own methods and of the reading and
    removing methods of its registry. *)
Definition own_traffic : list (@call string _ _ Z) :=
  [ CLimiter first;
    CRoundTrip other;
    CSetLimiterDefaults 10 2;
    CMap (syncmap.ODelete "http://example.org:8080"%string);
    CRoundTrip cancelled;
    CSetLogger (Some (Sink 1));
    CLimiter other ].

Definition shouting : Request := get 1 "http://EXAMPLE.com:80/x" "EXAMPLE.com" "80".

(** Visitors: one that reads, one that stops at once, one that adds a
    key on every visit. *)
Definition read_on : syncmap.visitor nat nat := λ k v m, (true, m).
Definition stop_now : syncmap.visitor nat nat := λ k v m, (false, m).
Definition add_more : syncmap.visitor nat nat := λ k v m, (true, <[(k + 10)%nat := v]> m).

(** Five goroutines in [LoadOrStore] on key 5: two look before
    anything is stored, two take the write lock with the values 7 and
    8, and one looks afterwards. *)
Definition five_racers : list (syncmap.racer nat) :=
  [ syncmap.Fast; syncmap.Fast; syncmap.Locked 7%nat; syncmap.Locked 8%nat; syncmap.Fast ].

End example.

(** * Properties of package syncmap *)

Section SyncMapFacts.

Import syncmap.

Context {K : Type} `{Countable K} {V : Type} `{EqDecision V}.
Variable zero : V.

Implicit Types (k key : K) (v a old new : V) (m : gmap K V).

Lemma index_Some m k a : m !! k = Some a → index zero m k = (a, true).
Proof. unfold index. by intros ->. Qed.

Lemma index_None m k : m !! k = None → index zero m k = (zero, false).
Proof. unfold index. by intros ->. Qed.

Lemma differs_false a old : differs a old = false ↔ a = old.
Proof.
  unfold differs. rewrite bool_decide_eq_false. split.
  - intros Hnn. by destruct (decide (a = old)).
  - intros -> Hne. by apply Hne.
Qed.

Lemma differs_true a old : differs a old = true ↔ a ≠ old.
Proof. unfold differs. by rewrite bool_decide_eq_true. Qed.

(** The section of [LoadOrStore] under the write lock meets the
    contract of the method on its own, whatever happened to the map
    between the first lookup and the acquisition of the lock. *)
Lemma LoadOrStore_locked_spec k v m :
  LoadOrStore_locked zero k v m =
    match m !! k with
    | Some a => ((a, true), m)
    | None => ((v, false), <[k := v]> m)
    end.
Proof. unfold LoadOrStore_locked, index. by destruct (m !! k). Qed.

Lemma LoadOrStore_eq k v m :
  LoadOrStore zero k v m =
    match m !! k with
    | Some a => ((a, true), m)
    | None => ((v, false), <[k := v]> m)
    end.
Proof.
  unfold LoadOrStore, Load. rewrite LoadOrStore_locked_spec.
  unfold index. by destruct (m !! k).
Qed.

Lemma LoadOrStore_present k v a m :
  m !! k = Some a → LoadOrStore zero k v m = ((a, true), m).
Proof. intros Hk. rewrite LoadOrStore_eq. by rewrite Hk. Qed.

Lemma LoadOrStore_absent k v m :
  m !! k = None → LoadOrStore zero k v m = ((v, false), <[k := v]> m).
Proof. intros Hk. rewrite LoadOrStore_eq. by rewrite Hk. Qed.

(** After [LoadOrStore] the key is bound to the value returned. *)
Lemma LoadOrStore_lookup k v m :
  (LoadOrStore zero k v m).2 !! k = Some (LoadOrStore zero k v m).1.1.
Proof.
  rewrite LoadOrStore_eq. destruct (m !! k) eqn:Hk; simpl; [done |].
  apply lookup_insert_eq.
Qed.

(** [LoadOrStore] never changes an entry that exists. *)
Lemma LoadOrStore_keeps k k' v a m :
  m !! k = Some a → (LoadOrStore zero k' v m).2 !! k = Some a.
Proof.
  intros Hk. rewrite LoadOrStore_eq. destruct (m !! k') eqn:Hk'; simpl; [done |].
  rewrite lookup_insert_ne; [done | congruence].
Qed.

Lemma LoadAndDelete_eq k m :
  LoadAndDelete zero k m = (index zero m k, delete k m).
Proof.
  unfold LoadAndDelete, LoadAndDelete_locked, Load, index.
  destruct (m !! k) eqn:Hk; simpl; [done |].
  by rewrite delete_id.
Qed.

Lemma CompareAndSwap_eq k old new m :
  CompareAndSwap zero k old new m =
    if decide ((index zero m k).1 = old) then (true, <[k := new]> m) else (false, m).
Proof.
  unfold CompareAndSwap, CompareAndSwap_locked, Load.
  destruct (index zero m k) as [value ok]; simpl.
  destruct (decide (value = old)) as [Heq | Hne].
  - apply differs_false in Heq. by rewrite Heq.
  - apply differs_true in Hne. by rewrite Hne.
Qed.

Lemma CompareAndDelete_eq k old m :
  CompareAndDelete zero k old m =
    if decide (m !! k = Some old) then (true, delete k m) else (false, m).
Proof.
  unfold CompareAndDelete, CompareAndDelete_locked, Load, index.
  destruct (decide (m !! k = Some old)) as [Heq | Hne].
  - rewrite Heq. simpl.
    assert (Hd : differs old old = false) by by apply differs_false.
    by rewrite Hd.
  - destruct (m !! k) as [value |]; simpl; [| done].
    assert (Hd : differs value old = true) by (apply differs_true; congruence).
    by rewrite Hd.
Qed.

(** [CompareAndSwap] on a key that the map holds. *)
Lemma CompareAndSwap_present k a old new m :
  m !! k = Some a →
  CompareAndSwap zero k old new m =
    if decide (a = old) then (true, <[k := new]> m) else (false, m).
Proof. intros Hk. rewrite CompareAndSwap_eq. by rewrite (index_Some _ _ _ Hk). Qed.

(** [CompareAndSwap] on a key that the map does not hold: both lookups
    yield the zero value, which is compared with [old]. *)
Lemma CompareAndSwap_absent k old new m :
  m !! k = None →
  CompareAndSwap zero k old new m =
    if decide (zero = old) then (true, <[k := new]> m) else (false, m).
Proof. intros Hk. rewrite CompareAndSwap_eq. by rewrite (index_None _ _ Hk). Qed.

(** The methods that look before they lock take effect at one moment.
    When the first lookup decides the call, the call returns without
    touching the map; otherwise the section under the write lock, run
    on the map as it is by then, does what the whole method does on
    that map.  So a call that other goroutines interleave with still
    behaves like the method run at once, which is how [exec] runs it. *)
Lemma LoadOrStore_locked_eq k v m :
  LoadOrStore_locked zero k v m = LoadOrStore zero k v m.
Proof. by rewrite LoadOrStore_locked_spec, LoadOrStore_eq. Qed.

Lemma LoadAndDelete_locked_eq k m :
  LoadAndDelete_locked zero k m = LoadAndDelete zero k m.
Proof.
  rewrite LoadAndDelete_eq. unfold LoadAndDelete_locked.
  by destruct (index zero m k).
Qed.

Lemma CompareAndSwap_locked_eq k old new m :
  CompareAndSwap_locked zero k old new m = CompareAndSwap zero k old new m.
Proof.
  unfold CompareAndSwap, CompareAndSwap_locked, Load.
  destruct (index zero m k) as [value ok]. by destruct (differs value old).
Qed.

Lemma CompareAndDelete_locked_eq k old m :
  CompareAndDelete_locked zero k old m = CompareAndDelete zero k old m.
Proof.
  unfold CompareAndDelete, CompareAndDelete_locked, Load.
  destruct (index zero m k) as [value ok].
  by destruct (negb ok || differs value old).
Qed.

(** The snapshot that [Keys] returns lists every key of the map once. *)
Lemma map_keys_NoDup m : NoDup (map_keys m).
Proof. apply NoDup_fst_map_to_list. Qed.

Lemma elem_of_map_keys m k : k ∈ map_keys m ↔ is_Some (m !! k).
Proof.
  unfold map_keys. rewrite list_elem_of_fmap. split.
  - intros [[k' v] [-> Hin]]. apply elem_of_map_to_list in Hin. by exists v.
  - intros [v Hv]. exists (k, v). split; [done |]. by apply elem_of_map_to_list.
Qed.

Lemma Keys_NoDup order m : iteration_order order → NoDup (Keys order m).
Proof. intros Hord. unfold Keys. rewrite (Hord _). apply map_keys_NoDup. Qed.

Lemma elem_of_Keys order m k :
  iteration_order order → k ∈ Keys order m ↔ is_Some (m !! k).
Proof. intros Hord. unfold Keys. rewrite (Hord _). apply elem_of_map_keys. Qed.

(** C2. For every key [k] and value [v]: if [k] is present with value
    [a], [LoadOrStore k v] returns [(a, true)] and leaves the map as
    it is; if [k] is absent, it stores [v] under [k] and returns
    [(v, false)]. *)
Theorem LoadOrStore_spec k v m :
  (∀ a, m !! k = Some a → LoadOrStore zero k v m = ((a, true), m)) ∧
  (m !! k = None → LoadOrStore zero k v m = ((v, false), <[k := v]> m)).
Proof.
  split.
  - intros a. apply LoadOrStore_present.
  - apply LoadOrStore_absent.
Qed.

(** C10. [Store k v] ends in the same map as [Swap k v] with its
    results dropped, namely the map with [v] installed under [k];
    [Delete k] ends in the same map as [LoadAndDelete k] with its
    results dropped, namely the map without [k]. *)
Theorem Store_Swap_Delete_LoadAndDelete k v m :
  Store zero k v m = (Swap zero k v m).2 ∧
  Store zero k v m = <[k := v]> m ∧
  Delete zero k m = (LoadAndDelete zero k m).2 ∧
  Delete zero k m = delete k m.
Proof.
  unfold Store, Delete. rewrite LoadAndDelete_eq.
  unfold Swap. destruct (index zero m k) as [previous loaded] eqn:Hi.
  repeat split; reflexivity.
Qed.

(** C7. Right after [Clear] the map is empty: [Keys] returns the empty
    list, in whatever order the runtime iterates, and [Load] finds no
    key, whichever keys the map held before. *)
Theorem Clear_empty order m :
  iteration_order order →
  Keys order (Clear m) = [] ∧
  ∀ k, Load zero k (Clear m) = (zero, false).
Proof.
  intros Hord. split.
  - unfold Keys, Clear, map_keys. rewrite map_to_list_empty. simpl.
    apply Permutation_nil_r. apply Hord.
  - intros k. unfold Load, Clear. apply index_None. apply lookup_empty.
Qed.

(** One turn of the loop of [Range]. *)
Lemma Range_loop_cons (f : visitor K V) k rest m :
  Range_loop zero f (k :: rest) m =
    match m !! k with
    | None =>
        (Skipped k m :: (Range_loop zero f rest m).1, (Range_loop zero f rest m).2)
    | Some v =>
        if (f k v m).1
        then (Visited k v m true :: (Range_loop zero f rest (f k v m).2).1,
              (Range_loop zero f rest (f k v m).2).2)
        else ([Visited k v m false], (f k v m).2)
    end.
Proof.
  simpl. unfold Load, index. destruct (m !! k) as [v |]; simpl.
  - destruct (f k v m) as [[|] m1]; simpl; [| done].
    by destruct (Range_loop zero f rest m1).
  - by destruct (Range_loop zero f rest m).
Qed.

(** Case analysis on one turn of the loop, for the proofs below. *)
Ltac range_turn f k m :=
  rewrite Range_loop_cons;
  let v := fresh "v" in
  let Hk := fresh "Hk" in
  let Hc := fresh "Hc" in
  destruct (m !! k) as [v |] eqn:Hk;
  [destruct ((f k v m).1) eqn:Hc |]; simpl.

Lemma Range_loop_prefix (f : visitor K V) keys m :
  event_key <$> (Range_loop zero f keys m).1 `prefix_of` keys.
Proof.
  revert m. induction keys as [| k rest IH]; intros m.
  - simpl. done.
  - range_turn f k m.
    + apply prefix_cons, IH.
    + apply prefix_cons, prefix_nil.
    + apply prefix_cons, IH.
Qed.

Lemma Range_loop_faithful (f : visitor K V) keys m :
  Forall (faithful f) (Range_loop zero f keys m).1.
Proof.
  revert m. induction keys as [| k rest IH]; intros m.
  - simpl. constructor.
  - range_turn f k m.
    + constructor; [by split | apply IH].
    + constructor; [by split | constructor].
    + constructor; [done | apply IH].
Qed.

Lemma Range_loop_chained (f : visitor K V) keys m :
  chained f m (Range_loop zero f keys m).1 (Range_loop zero f keys m).2.
Proof.
  revert m. induction keys as [| k rest IH]; intros m.
  - simpl. done.
  - range_turn f k m.
    + split; [done | apply IH].
    + by split.
    + split; [done | apply IH].
Qed.

(** The loop ends with the first event on which the visitor answers
    [false]. *)
Lemma Range_loop_stop (f : visitor K V) keys m l1 e l2 :
  (Range_loop zero f keys m).1 = l1 ++ e :: l2 → stops e = true → l2 = [].
Proof.
  revert m l1. induction keys as [| k rest IH]; intros m l1.
  - simpl. by destruct l1.
  - range_turn f k m; intros Heq Hstop.
    + destruct l1 as [| e1 l1]; simplify_eq/=. by eapply IH.
    + destruct l1 as [| e1 l1]; simplify_eq/=; [done |]. by destruct l1.
    + destruct l1 as [| e1 l1]; simplify_eq/=. by eapply IH.
Qed.

(** When the visitor never answers [false] the loop reaches every key
    of the snapshot, in order. *)
Lemma Range_loop_all (f : visitor K V) keys m :
  Forall (λ e, stops e = false) (Range_loop zero f keys m).1 →
  event_key <$> (Range_loop zero f keys m).1 = keys.
Proof.
  revert m. induction keys as [| k rest IH]; intros m.
  - done.
  - range_turn f k m; intros Hall; inversion Hall; simplify_eq/=.
    + f_equal. by apply IH.
    + f_equal. by apply IH.
Qed.

(** A visitor that leaves the entry of [key] alone makes [Range] leave
    it alone. *)
Lemma Range_loop_keeps (f : visitor K V) key keys m :
  (∀ k v m, (f k v m).2 !! key = m !! key) →
  (Range_loop zero f keys m).2 !! key = m !! key.
Proof.
  intros Hf. revert m. induction keys as [| k rest IH]; intros m.
  - done.
  - range_turn f k m.
    + rewrite IH. apply Hf.
    + apply Hf.
    + apply IH.
Qed.

(** A call that keeps [key] does not change the entry of [key]. *)
Lemma exec_keeps key (o : op K V) a m :
  keeps key a o → m !! key = Some a → (exec zero o m).2 !! key = Some a.
Proof.
  intros Hkeep Hm. destruct o; simpl in *.
  - unfold Load. by destruct (index zero m key0).
  - unfold Store, Swap. destruct (index zero m key0). simpl.
    by rewrite lookup_insert_ne.
  - unfold Swap. destruct (index zero m key0). simpl.
    by rewrite lookup_insert_ne.
  - unfold Delete. rewrite LoadAndDelete_eq. simpl. by rewrite lookup_delete_ne.
  - rewrite LoadAndDelete_eq. destruct (index zero m key0). simpl.
    by rewrite lookup_delete_ne.
  - pose proof (LoadOrStore_keeps key key0 value a m Hm) as Hl.
    by destruct (LoadOrStore zero key0 value m) as [[? ?] ?].
  - rewrite CompareAndSwap_eq. case_decide as Heq; simpl; [| done].
    destruct Hkeep as [Hne | Hne]; [by rewrite lookup_insert_ne |].
    destruct (decide (key0 = key)) as [-> | Hk]; [| by rewrite lookup_insert_ne].
    rewrite (index_Some _ _ _ Hm) in Heq. simpl in Heq. by subst.
  - rewrite CompareAndDelete_eq. case_decide as Heq; simpl; [| done].
    destruct Hkeep as [Hne | Hne]; [by rewrite lookup_delete_ne |].
    destruct (decide (key0 = key)) as [-> | Hk]; [| by rewrite lookup_delete_ne].
    congruence.
  - pose proof (Range_loop_keeps f key (Keys order m) m Hkeep) as Hr.
    unfold Range. destruct (Range_loop zero f (Keys order m) m). simpl in *.
    by rewrite Hr.
  - done.
  - done.
  - unfold Call. by rewrite Hkeep.
Qed.

Lemma NoDup_fmap_eq {A B : Type} (g : A → B) (l : list A) x y :
  NoDup (g <$> l) → x ∈ l → y ∈ l → g x = g y → x = y.
Proof.
  induction l as [| z l IH]; simpl; intros Hnd Hx Hy Hg.
  - by apply elem_of_nil in Hx.
  - apply NoDup_cons in Hnd as [Hz Hnd].
    apply elem_of_cons in Hx as [-> | Hx]; apply elem_of_cons in Hy as [-> | Hy].
    + done.
    + exfalso. apply Hz. rewrite Hg. by apply list_elem_of_fmap_2.
    + exfalso. apply Hz. rewrite <- Hg. by apply list_elem_of_fmap_2.
    + by apply IH.
Qed.

Lemma Range_keys_NoDup order (f : visitor K V) m :
  iteration_order order → NoDup (event_key <$> (Range zero order f m).1).
Proof.
  intros Hord. unfold Range.
  destruct (Range_loop_prefix f (Keys order m) m) as [tail Htail].
  pose proof (Keys_NoDup order m Hord) as Hnd.
  rewrite Htail in Hnd. by apply NoDup_app in Hnd as [Hnd _].
Qed.

(** C6. [Range] calls the visitor at most once per key.  With
    [events] the log of the call: no key is reached twice; every event
    agrees with the map at that moment, so that a key is visited only
    with the value it has then and a key that is gone when the loop
    reaches it is skipped and never visited; the loop ends with the
    first visit that answers [false]; and when no visit answers
    [false], a key that is in the map at the start and at every moment
    of the loop is visited exactly once, with its value. *)
Theorem Range_visits order (f : visitor K V) m :
  iteration_order order →
  let events := (Range zero order f m).1 in
  NoDup (event_key <$> events) ∧
  Forall (faithful f) events ∧
  chained f m events (Range zero order f m).2 ∧
  (∀ l1 e l2, events = l1 ++ e :: l2 → stops e = true → l2 = []) ∧
  (∀ e, e ∈ events → event_map e !! event_key e = None →
        ∀ v mk c, Visited (event_key e) v mk c ∉ events) ∧
  (∀ k, is_Some (m !! k) →
        Forall (λ e, stops e = false) events →
        Forall (λ e, is_Some (event_map e !! k)) events →
        ∃ l1 v mk l2,
          events = l1 ++ Visited k v mk true :: l2 ∧
          mk !! k = Some v ∧
          k ∉ event_key <$> (l1 ++ l2)).
Proof.
  intros Hord events.
  pose proof (Range_keys_NoDup order f m Hord) as Hnd. fold events in Hnd.
  assert (Hfaith : Forall (faithful f) events)
    by apply Range_loop_faithful.
  split; [done |]. split; [done |].
  split; [apply Range_loop_chained |].
  split; [intros l1 e l2; apply Range_loop_stop |].
  split.
  - intros e He Habsent v mk c Hvis.
    assert (e = Visited (event_key e) v mk c) as Heq.
    { by eapply (NoDup_fmap_eq event_key events). }
    rewrite Forall_forall in Hfaith. specialize (Hfaith _ Hvis) as [Hmk _].
    rewrite Heq in Habsent. simpl in Habsent. congruence.
  - intros k Hin Hgo Hpresent.
    assert (Hkeys : event_key <$> events = Keys order m)
      by by apply Range_loop_all.
    assert (Hk : k ∈ event_key <$> events)
      by (rewrite Hkeys; by apply elem_of_Keys).
    apply list_elem_of_fmap in Hk as [e [-> He]].
    apply list_elem_of_split in He as [l1 [l2 Hsplit]].
    rewrite Forall_forall in Hfaith, Hgo, Hpresent.
    assert (Hin_e : e ∈ events).
    { rewrite Hsplit. apply elem_of_app. right. apply elem_of_cons. by left. }
    specialize (Hfaith _ Hin_e). specialize (Hgo _ Hin_e).
    specialize (Hpresent _ Hin_e).
    destruct e as [k mk | k v mk c]; simpl in *.
    + rewrite Hfaith in Hpresent. by destruct Hpresent.
    + destruct Hfaith as [Hmk _]. destruct c; [| done].
      exists l1, v, mk, l2. split; [done |]. split; [done |].
      rewrite Hsplit in Hnd. rewrite fmap_app in Hnd. simpl in Hnd.
      apply NoDup_app in Hnd as (_ & Hl1 & Hnd).
      apply NoDup_cons in Hnd as [Hl2 _].
      rewrite fmap_app. intros [Hbad | Hbad]%elem_of_app.
      * apply (Hl1 k Hbad). apply elem_of_cons. by left.
      * by apply Hl2.
Qed.

End SyncMapFacts.

(** * Properties of package ratelim *)

Section OriginFacts.

Import ratelim.

Variable ToLower : string → string.

(** Leading characters of the cutset are the only thing that
    [TrimLeft] removes, and it removes all of them. *)
Lemma TrimLeft_split (s cutset : string) :
  ∃ zeros,
    s = (zeros ++ TrimLeft s cutset)%string ∧
    Forall (λ c, in_cutset c cutset = true) (list_ascii_of_string zeros) ∧
    match TrimLeft s cutset with
    | EmptyString => True
    | String c _ => in_cutset c cutset = false
    end.
Proof.
  induction s as [| c rest IH]; simpl.
  - exists EmptyString. by repeat split.
  - destruct (in_cutset c cutset) eqn:Hc.
    + destruct IH as (zeros & Heq & Hall & Hhead).
      exists (String c zeros). split; [exact (f_equal (String c) Heq) |].
      split; [by constructor | done].
    + exists EmptyString. simpl. by repeat split.
Qed.

Lemma in_cutset_zero (c : ascii) : in_cutset c "0" = true ↔ c = "0"%char.
Proof.
  unfold in_cutset. simpl. rewrite orb_false_r. apply Ascii.eqb_eq.
Qed.

Lemma TrimLeft_zero (port : string) : TrimLeft port "0" = strip_leading_zeros port.
Proof.
  induction port as [| c rest IH]; simpl; [done |].
  unfold in_cutset. simpl. rewrite orb_false_r.
  destruct (Ascii.eqb c "0"); [apply IH | done].
Qed.

Lemma defaultPorts_lookup (scheme : string) :
  defaultPorts !! scheme = conventional_port scheme.
Proof.
  unfold defaultPorts, conventional_port.
  destruct (String.eqb_spec scheme "http") as [-> | Hhttp]; [done |].
  rewrite lookup_insert_ne; [| done].
  destruct (String.eqb_spec scheme "https") as [-> | Hhttps]; [done |].
  by rewrite lookup_singleton_ne.
Qed.

(** C5. For every URL the origin key is [scheme://host] with the host
    lower cased, followed by [:port] exactly when the explicit port,
    with its leading zeros stripped, is not empty and is not the
    conventional port of the scheme (80 for http, 443 for https); an
    URL without a port has the empty port and shows none. *)
Theorem Origin_key (r : Request) :
  Origin ToLower (Url r) = origin_key ToLower (Url r) ∧
  TargetOrigin ToLower r = origin_key ToLower (Url r) ∧
  ∀ scheme host text,
    origin_key ToLower (mkURL scheme host "" text) = (scheme ++ "://" ++ ToLower host)%string.
Proof.
  assert (Hkey : ∀ url, Origin ToLower url = origin_key ToLower url).
  { intros url. unfold Origin, origin_key, port_shown.
    rewrite TrimLeft_zero, defaultPorts_lookup.
    destruct (String.eqb_spec (strip_leading_zeros (Port url)) "") as [Hempty | Hfull].
    - rewrite decide_False; [done |]. intros [Hne _]. by apply Hne.
    - destruct (conventional_port (Scheme url)) as [defaultPort |] eqn:Hconv.
      + destruct (String.eqb_spec (strip_leading_zeros (Port url)) defaultPort)
          as [Hdef | Hother].
        * rewrite decide_False; [done |]. intros [_ Hne]. apply Hne. by rewrite Hdef.
        * rewrite decide_True; [done |]. split; [done | congruence].
      + rewrite decide_True; [done |]. by split. }
  split; [apply Hkey |]. split; [apply Hkey |].
  intros scheme host text. unfold origin_key.
  case_decide as Hshown; [| done].
  destruct Hshown as [Hne _]. by contradiction Hne.
Qed.

End OriginFacts.

Section RoundTripperFacts.

Import ratelim.

Context {K : Type} `{Countable K}.
Context {Limit LimiterState Response Error : Type}.
Variable NewLimiter : Limit → Z → LimiterState.
Variable Wait : LimiterState → nat → Z → option Error * LimiterState * Z.
Variable Transport : Request → Z → (option Response * option Error) * Z.
Variable keyFunc : Request → K.

Local Abbreviation State := (@State K _ _ Limit LimiterState).
Local Abbreviation Limiter := (Limiter NewLimiter keyFunc).
Local Abbreviation RoundTrip := (RoundTrip NewLimiter Wait Transport keyFunc).
Local Abbreviation step := (step NewLimiter Wait Transport keyFunc).
Local Abbreviation run := (run NewLimiter Wait Transport keyFunc).
Local Abbreviation Key := (Key keyFunc).
Local Abbreviation get_or_create := (get_or_create keyFunc).
Local Abbreviation reads := (reads keyFunc).

Implicit Types (t : State) (req : Request) (key : K) (a : LimiterPtr).

(** [Limiter] is [LoadOrStore] of a limiter allocated at the next free
    address; it changes the registry and the heap and nothing else. *)
Lemma Limiter_eq req t :
  Limiter req t =
    let r := syncmap.LoadOrStore None (Key req) (Some (length (heap t))) (limiters t) in
    (r.1.1,
     mkState (defaultLimit t) (defaultBurst t) r.2 (Logger t)
       (heap t ++ [NewLimiter (defaultLimit t) (defaultBurst t)])
       (clock t) (sent t) (logged t)).
Proof.
  unfold ratelim.Limiter, LimiterDefaults. simpl.
  by destruct (syncmap.LoadOrStore None (Key req) (Some (length (heap t))) (limiters t))
    as [[limiter loaded] limiters'].
Qed.

Lemma Limiter_lookup req t :
  limiters (Limiter req t).2 !! Key req = Some (Limiter req t).1.
Proof. rewrite Limiter_eq. simpl. apply LoadOrStore_lookup. Qed.

Lemma Limiter_keeps req key a t :
  limiters t !! key = Some a → limiters (Limiter req t).2 !! key = Some a.
Proof. intros Hk. rewrite Limiter_eq. simpl. by apply LoadOrStore_keeps. Qed.

Lemma Limiter_present req a t :
  limiters t !! Key req = Some a →
  (Limiter req t).1 = a ∧ limiters (Limiter req t).2 = limiters t.
Proof.
  intros Hk. rewrite Limiter_eq. simpl.
  by rewrite (LoadOrStore_present None _ _ a _ Hk).
Qed.

(** [RoundTrip] changes the registry only through its call of [Limiter]. *)
Lemma RoundTrip_limiters req t answer t' :
  RoundTrip req t = Some (answer, t') → limiters t' = limiters (Limiter req t).2.
Proof.
  unfold ratelim.RoundTrip.
  destruct (Limiter req t) as [limiter t1]. simpl.
  destruct (wait_on Wait limiter req t1) as [[[[err |] heap2] now2] |]; [| | done].
  - by intros [= <- <-].
  - destruct (Transport req now2) as [answer' now3]. by intros [= <- <-].
Qed.

Lemma step_keeps key (c : call) a t :
  keeps key a c → limiters t !! key = Some a → limiters (step c t).2 !! key = Some a.
Proof.
  intros Hkeep Hk. destruct c as [o | req | | limit burst | logger | req]; simpl.
  - pose proof (exec_keeps None key o a (limiters t) Hkeep Hk) as Hexec.
    unfold Limiters. by destruct (syncmap.exec None o (limiters t)).
  - pose proof (Limiter_keeps req key a t Hk). by destruct (Limiter req t).
  - done.
  - done.
  - done.
  - destruct (RoundTrip req t) as [[[resp err] t'] |] eqn:Hrt; simpl; [| done].
    apply RoundTrip_limiters in Hrt. rewrite Hrt. by apply Limiter_keeps.
Qed.

Lemma run_keeps key (cs : list call) a t :
  Forall (keeps key a) cs → limiters t !! key = Some a →
  limiters (run cs t).2 !! key = Some a.
Proof.
  intros Hall. revert t. induction Hall as [| c cs Hc Hcs IH]; intros t Hk.
  - done.
  - simpl. pose proof (step_keeps key c a t Hc Hk) as Hstep.
    destruct (step c t) as [ans t1]. simpl in Hstep.
    specialize (IH t1 Hstep). by destruct (run cs t1).
Qed.

(** What a get-or-create hands back is what the registry holds for the
    key afterwards. *)
Lemma get_or_create_lookup key (c : call) a t :
  get_or_create key c → returned (step c t).1 = Some a →
  limiters (step c t).2 !! key = Some a.
Proof.
  destruct c as [[] | req | | | |]; simpl; try done.
  - intros ->. unfold Limiters.
    pose proof (LoadOrStore_lookup None key value (limiters t)) as Hl.
    destruct (syncmap.LoadOrStore None key value (limiters t)) as [[actual loaded] m'].
    simpl in *. by intros [= <-].
  - intros <-. pose proof (Limiter_lookup req t) as Hl.
    destruct (Limiter req t) as [limiter t1]. simpl in *. by intros [= <-].
Qed.

(** C1. Single instance per key.  Once a get-or-create ([LoadOrStore],
    or [Limiter] for a request of that key) has returned [a] for
    [key], then after any sequence of calls none of which overwrites
    or removes the entry of [key] or clears the registry, a [Load],
    [LoadOrStore] or [Limiter] for [key] returns [a] again, found in
    the registry, and leaves the registry as it is. *)
Theorem single_instance_per_key key (c0 : call) t0 (cs : list call) (c : call) a :
  get_or_create key c0 →
  returned (step c0 t0).1 = Some a →
  Forall (keeps key a) cs →
  reads key c →
  let t := (run cs (step c0 t0).2).2 in
  limiters t !! key = Some a ∧
  ((step c t).1 = ALimiter a ∨ (step c t).1 = AMap (syncmap.RValue a true)) ∧
  limiters (step c t).2 = limiters t.
Proof.
  intros Hcreate Hret Hkeeps Hreads t.
  assert (Hk : limiters t !! key = Some a).
  { apply run_keeps; [done |]. by apply get_or_create_lookup. }
  split; [done |].
  destruct c as [[] | req | | | |]; simpl in *; try done; subst.
  - unfold Limiters, syncmap.Load. rewrite (index_Some _ _ _ _ Hk). simpl.
    split; [by right | done].
  - unfold Limiters. rewrite (LoadOrStore_present None _ _ a _ Hk). simpl.
    split; [by right | done].
  - destruct (Limiter_present req a t Hk) as [Hfst Hsnd].
    destruct (Limiter req t) as [limiter t1]. simpl in *. subst.
    split; [by left | done].
Qed.

(** C8. [SetLimiterDefaults] changes the stored default limit and
    burst, which [LimiterDefaults] then returns, and nothing else: the
    registry and the limiter objects stay as they are.  The new
    defaults show only in the limiter built for a key that the
    registry does not hold; for a key that it holds, [Limiter] still
    returns the registered limiter and leaves every existing limiter
    object alone. *)
Theorem SetLimiterDefaults_frame (limit : Limit) (burst : Z) t :
  let t' := SetLimiterDefaults limit burst t in
  LimiterDefaults t' = (limit, burst) ∧
  (limiters t' = limiters t ∧ heap t' = heap t ∧ Logger t' = Logger t ∧
   clock t' = clock t ∧ sent t' = sent t ∧ logged t' = logged t) ∧
  (∀ req a, limiters t !! Key req = Some a →
     (Limiter req t').1 = a ∧
     limiters (Limiter req t').2 = limiters t ∧
     ∀ addr l, heap t !! addr = Some l → heap (Limiter req t').2 !! addr = Some l) ∧
  (∀ req, limiters t !! Key req = None →
     ∃ addr,
       (Limiter req t').1 = Some addr ∧
       heap t !! addr = None ∧
       heap (Limiter req t').2 !! addr = Some (NewLimiter limit burst) ∧
       limiters (Limiter req t').2 = <[Key req := Some addr]> (limiters t)).
Proof.
  intros t'. split; [done |]. split; [done |]. split.
  - intros req a Hk. rewrite Limiter_eq. simpl.
    rewrite (LoadOrStore_present None _ _ a _ Hk). simpl.
    split; [done |]. split; [done |].
    intros addr l Hl. by apply lookup_app_l_Some.
  - intros req Hk. exists (length (heap t)). rewrite Limiter_eq. simpl.
    rewrite (LoadOrStore_absent None _ _ _ Hk). simpl. split; [done |].
    split; [by apply lookup_ge_None |].
    split; [| done].
    rewrite lookup_app_r; [| done]. by rewrite Nat.sub_diag.
Qed.

(** C4. When the limiter's [Wait] returns an error, [RoundTrip]
    returns a nil response with that error, the wrapped round tripper
    is not called and no trace record is written. *)
Theorem RoundTrip_cancelled req t (err : Error) heap2 now2 :
  wait_on Wait (Limiter req t).1 req (Limiter req t).2 = Some (Some err, heap2, now2) →
  ∃ t',
    RoundTrip req t = Some ((None, Some err), t') ∧
    sent t' = sent t ∧
    logged t' = logged t.
Proof.
  intros Hwait. unfold ratelim.RoundTrip.
  pose proof (Limiter_eq req t) as Hlim.
  destruct (Limiter req t) as [limiter t1]. simpl in Hwait. rewrite Hwait.
  eexists. split; [reflexivity |].
  injection Hlim as _ ->. by simpl.
Qed.

(** C9. A dispatch that is admitted writes exactly one trace record,
    holding the key, the wait time, the time spent in the wrapped
    round tripper, the total time, and the method and URL of the
    request; nothing is written when [Logger] is nil or writes to
    [io.Discard].  The request is handed to the wrapped round tripper
    once and its answer is returned as it is. *)
Theorem RoundTrip_trace req t heap2 now2 :
  wait_on Wait (Limiter req t).1 req (Limiter req t).2 = Some (None, heap2, now2) →
  let start := clock t in
  let now3 := (Transport req now2).2 in
  let wait := Since start now2 in
  let total := Since start now3 in
  ∃ t',
    RoundTrip req t = Some ((Transport req now2).1, t') ∧
    sent t' = sent t ++ [req] ∧
    match Logger t with
    | None | Some Discard => logged t' = logged t
    | Some (Sink _) =>
        ∃ r,
          logged t' = logged t ++ [r] ∧
          trace_key r = Key req ∧
          trace_wait r = Milliseconds wait ∧
          trace_resp r = Milliseconds (Duration_sub total wait) ∧
          trace_total r = Milliseconds total ∧
          trace_method r = Method req ∧
          trace_url r = Rendered (Url req)
    end.
Proof.
  intros Hwait start now3 wait total. unfold ratelim.RoundTrip.
  pose proof (Limiter_eq req t) as Hlim. subst start now3 wait total.
  destruct (Limiter req t) as [limiter t1]. simpl in Hwait. rewrite Hwait.
  destruct (Transport req now2) as [answer now3]. simpl.
  eexists. split; [reflexivity |].
  injection Hlim as _ ->. simpl. split; [done |].
  destruct (Logger t) as [[| id] |]; simpl; [done | | done].
  eexists. by repeat split.
Qed.

(** With a clock that does not go backwards and stays within the range
    of a Duration, the time logged for the wrapped round tripper is the
    time between the end of the wait and the end of the call. *)
Lemma Duration_sub_Since (start now2 now3 : Z) :
  start ≤ now2 → now2 ≤ now3 → now3 - start ≤ maxDuration →
  Duration_sub (Since start now3) (Since start now2) = now3 - now2.
Proof.
  unfold Duration_sub, Since, minDuration, maxDuration. intros H1 H2 H3.
  rewrite !Z.min_r by lia. rewrite !Z.max_r by lia.
  replace (now3 - start - (now2 - start)) with (now3 - now2) by lia.
  rewrite Z.mod_small by lia. lia.
Qed.

End RoundTripperFacts.

(** * The theorems at work on examples *)

Section Examples.

Import ratelim example.

Example Origin_examples :
  Origin ascii_ToLower (Url first) = "http://example.com"%string ∧
  Origin ascii_ToLower (Url other) = "http://example.org:8080"%string ∧
  Origin ascii_ToLower (mkURL "https" "Example.com" "00443" "") = "https://example.com"%string ∧
  Origin ascii_ToLower (mkURL "https" "example.com" "80" "") = "https://example.com:80"%string ∧
  Origin ascii_ToLower (mkURL "ftp" "h" "0" "") = "ftp://h"%string.
Proof. repeat split; reflexivity. Qed.

(** C3, the failing input.  On a key that the map does not hold,
    [CompareAndSwap] with the nil limiter as [old] stores [new] and
    returns true, where [CompareAndDelete] on the same input returns
    false and leaves the map alone. *)
Theorem CompareAndSwap_absent_nil :
  syncmap.CompareAndSwap (None : LimiterPtr) "http://example.com"%string None (Some 0%nat) ∅
    = (true, {[ "http://example.com"%string := Some 0%nat ]}) ∧
  syncmap.CompareAndDelete (None : LimiterPtr) "http://example.com"%string None ∅
    = (false, ∅).
Proof.
  split.
  - rewrite CompareAndSwap_absent; [| apply lookup_empty]. by rewrite decide_True.
  - rewrite CompareAndDelete_eq. by rewrite lookup_empty.
Qed.

Lemma LoadOrStore_spec_witness :
  syncmap.LoadOrStore (None : LimiterPtr) "a"%string (Some 1%nat) {[ "a"%string := Some 0%nat ]}
    = ((Some 0%nat, true), {[ "a"%string := Some 0%nat ]}) ∧
  syncmap.LoadOrStore (None : LimiterPtr) "b"%string (Some 1%nat) {[ "a"%string := Some 0%nat ]}
    = ((Some 1%nat, false), <[ "b"%string := Some 1%nat ]> {[ "a"%string := Some 0%nat ]}).
Proof.
  split.
  - apply (proj1 (LoadOrStore_spec None "a"%string (Some 1%nat) {[ "a"%string := Some 0%nat ]})).
    vm_compute. reflexivity.
  - apply (proj2 (LoadOrStore_spec None "b"%string (Some 1%nat) {[ "a"%string := Some 0%nat ]})).
    vm_compute. reflexivity.
Defined.

Lemma Clear_empty_witness :
  syncmap.iteration_order (λ l : list nat, l) ∧
  syncmap.Keys (λ l : list nat, l) (syncmap.Clear numbers) = [] ∧
  ∀ k, syncmap.Load 0%nat k (syncmap.Clear numbers) = (0%nat, false).
Proof.
  assert (Hord : syncmap.iteration_order (λ l : list nat, l)) by (intros l; reflexivity).
  split; [exact Hord |].
  apply (Clear_empty 0%nat (λ l, l) numbers Hord).
Defined.

Lemma Range_visits_witness :
  syncmap.iteration_order (λ l : list nat, l) ∧
  let events := (syncmap.Range 0%nat (λ l, l) delete_next numbers).1 in
  NoDup (syncmap.event_key <$> events) ∧
  Forall (syncmap.faithful delete_next) events.
Proof.
  assert (Hord : syncmap.iteration_order (λ l : list nat, l)) by (intros l; reflexivity).
  split; [exact Hord |].
  pose proof (Range_visits 0%nat (λ l, l) delete_next numbers Hord) as (Hnd & Hf & _).
  split; [exact Hnd | exact Hf].
Defined.

Example Range_delete_next :
  (λ e, (syncmap.event_key e, syncmap.stops e)) <$>
    (syncmap.Range 0%nat (λ l, l) delete_next numbers).1
  = [(2%nat, false); (3%nat, false); (1%nat, false)] ∧
  (syncmap.Range 0%nat (λ l, l) delete_next numbers).1 !! 1%nat
  = Some (syncmap.Skipped 3%nat {[ 1%nat := 10%nat; 2%nat := 20%nat ]}).
Proof. split; vm_compute; reflexivity. Qed.

Local Abbreviation step := (ratelim.step NewLimiter Wait Transport keyFunc).
Local Abbreviation run := (ratelim.run NewLimiter Wait Transport keyFunc).
Local Abbreviation Limiter := (ratelim.Limiter NewLimiter keyFunc).
Local Abbreviation RoundTrip := (ratelim.RoundTrip NewLimiter Wait Transport keyFunc).
Local Abbreviation get_or_create := (@ratelim.get_or_create string _ _ Z keyFunc).
Local Abbreviation reads := (@ratelim.reads string _ _ Z keyFunc).

Lemma single_instance_per_key_witness :
  let key := "http://example.com"%string in
  let t := (run traffic (step (CLimiter first) fresh).2).2 in
  get_or_create key (CLimiter first) ∧
  returned (step (CLimiter first) fresh).1 = Some (Some 0%nat) ∧
  Forall (keeps key (Some 0%nat)) traffic ∧
  reads key (CLimiter second) ∧
  limiters t !! key = Some (Some 0%nat) ∧
  ((step (CLimiter second) t).1 = ALimiter (Some 0%nat) ∨
   (step (CLimiter second) t).1 = AMap (syncmap.RValue (Some 0%nat) true)) ∧
  limiters (step (CLimiter second) t).2 = limiters t.
Proof.
  intros key t.
  assert (H1 : get_or_create key (CLimiter first)) by reflexivity.
  assert (H2 : returned (step (CLimiter first) fresh).1 = Some (Some 0%nat))
    by reflexivity.
  assert (H3 : Forall (keeps key (Some 0%nat)) traffic)
    by (repeat constructor; simpl; try left; discriminate).
  assert (H4 : reads key (CLimiter second)) by reflexivity.
  split; [exact H1 |]. split; [exact H2 |]. split; [exact H3 |]. split; [exact H4 |].
  exact (single_instance_per_key NewLimiter Wait Transport keyFunc
           key (CLimiter first) fresh traffic (CLimiter second) (Some 0%nat)
           H1 H2 H3 H4).
Defined.

Lemma SetLimiterDefaults_frame_witness :
  let t := (step (CLimiter first) fresh).2 in
  let t' := SetLimiterDefaults 10 2 t in
  LimiterDefaults t' = (10, 2) ∧
  limiters t' = limiters t ∧ heap t' = heap t ∧
  (Limiter second t').1 = Some 0%nat ∧
  ∃ addr, (Limiter other t').1 = Some addr ∧ heap (Limiter other t').2 !! addr = Some (10, 2).
Proof.
  intros t t'.
  pose proof (SetLimiterDefaults_frame NewLimiter keyFunc 10 2 t)
    as (Hdefaults & (Hlimiters & Hheap & _) & Hseen & Hunseen).
  split; [exact Hdefaults |]. split; [exact Hlimiters |]. split; [exact Hheap |].
  split.
  - apply (Hseen second (Some 0%nat)). vm_compute. reflexivity.
  - destruct (Hunseen other) as (addr & Hptr & _ & Hobj & _).
    + vm_compute. reflexivity.
    + exists addr. split; [exact Hptr | exact Hobj].
Defined.

Lemma RoundTrip_cancelled_witness :
  wait_on Wait (Limiter cancelled fresh).1 cancelled (Limiter cancelled fresh).2
    = Some (Some "context canceled"%string, [(5, 1)], 0) ∧
  ∃ t',
    RoundTrip cancelled fresh = Some ((None, Some "context canceled"%string), t') ∧
    sent t' = sent fresh ∧
    logged t' = logged fresh.
Proof.
  assert (Hwait : wait_on Wait (Limiter cancelled fresh).1 cancelled (Limiter cancelled fresh).2
                  = Some (Some "context canceled"%string, [(5, 1)], 0))
    by (vm_compute; reflexivity).
  split; [exact Hwait |].
  exact (RoundTrip_cancelled NewLimiter Wait Transport keyFunc cancelled fresh
           "context canceled"%string [(5, 1)] 0 Hwait).
Defined.

Lemma RoundTrip_trace_witness :
  wait_on Wait (Limiter first fresh).1 first (Limiter first fresh).2
    = Some (None, [(5, 1)], 200000000) ∧
  ∃ t',
    RoundTrip first fresh = Some ((Some 200, None), t') ∧
    sent t' = [first] ∧
    ∃ r,
      logged t' = [r] ∧
      trace_key r = "http://example.com"%string ∧
      trace_wait r = 200 ∧
      trace_resp r = 500 ∧
      trace_total r = 700 ∧
      trace_method r = "GET"%string ∧
      trace_url r = "http://Example.COM:0080/1"%string.
Proof.
  assert (Hwait : wait_on Wait (Limiter first fresh).1 first (Limiter first fresh).2
                  = Some (None, [(5, 1)], 200000000))
    by (vm_compute; reflexivity).
  split; [exact Hwait |].
  exact (RoundTrip_trace NewLimiter Wait Transport keyFunc first fresh
           [(5, 1)] 200000000 Hwait).
Defined.

End Examples.

(** * Further properties of package syncmap *)

Section SyncMapContracts.

Import syncmap.

Context {K : Type} `{Countable K} {V : Type} `{EqDecision V}.
Variable zero : V.

Implicit Types (k key : K) (v a old new : V) (m : gmap K V).

Lemma Load_true k m : (Load zero k m).2 = true ↔ is_Some (m !! k).
Proof.
  unfold Load, index. destruct (m !! k) as [a |]; simpl.
  - split; [by eexists | done].
  - split; [done | by intros [? ?]].
Qed.

Lemma Load_other k' m m' : m' !! k' = m !! k' → Load zero k' m' = Load zero k' m.
Proof. unfold Load, index. by intros ->. Qed.

(** X1. [Store] then [Load]: the key holds the stored value, the other
    keys read as before, and a later [Swap] hands the stored value
    back as the previous one. *)
Theorem Store_then_Load k v m :
  Load zero k (Store zero k v m) = (v, true) ∧
  (∀ k', k' ≠ k → Load zero k' (Store zero k v m) = Load zero k' m) ∧
  (∀ v', Swap zero k v' (Store zero k v m) = ((v, true), Store zero k v' m)).
Proof.
  assert (Hstore : ∀ w, Store zero k w m = <[k := w]> m).
  { intros w. unfold Store, Swap. by destruct (index zero m k). }
  rewrite Hstore. split; [| split].
  - apply index_Some. apply lookup_insert_eq.
  - intros k' Hne. apply Load_other. by rewrite lookup_insert_ne.
  - intros v'. rewrite Hstore. unfold Swap.
    rewrite (index_Some zero _ k v) by apply lookup_insert_eq.
    by rewrite insert_insert_eq.
Qed.

(** X2. [LoadAndDelete] returns what [Load] returns on the map before
    the call; afterwards [Load] does not find the key, the other keys
    read as before, and a call that reports [loaded = false] has left
    the map as it was. *)
Theorem LoadAndDelete_contract k m :
  (LoadAndDelete zero k m).1 = Load zero k m ∧
  Load zero k (LoadAndDelete zero k m).2 = (zero, false) ∧
  (∀ k', k' ≠ k → Load zero k' (LoadAndDelete zero k m).2 = Load zero k' m) ∧
  ((LoadAndDelete zero k m).1.2 = false → (LoadAndDelete zero k m).2 = m).
Proof.
  rewrite LoadAndDelete_eq. simpl. split; [done |]. split; [| split].
  - apply index_None. apply lookup_delete_eq.
  - intros k' Hne. apply Load_other. by rewrite lookup_delete_ne.
  - unfold index. destruct (m !! k) eqn:Hk; simpl; [done |].
    intros _. by apply delete_id.
Qed.

(** X3. Deleting twice is deleting once, [Delete] after [Store] of the
    same key is [Delete], and so [Delete] undoes the [Store] of a key
    that the map did not hold. *)
Theorem Delete_Store k v m :
  Delete zero k (Delete zero k m) = Delete zero k m ∧
  Delete zero k (Store zero k v m) = Delete zero k m ∧
  (m !! k = None → Delete zero k (Store zero k v m) = m).
Proof.
  unfold Delete. rewrite !LoadAndDelete_eq. simpl.
  unfold Store, Swap. destruct (index zero m k). simpl.
  split; [| split].
  - apply map_eq. intros i. destruct (decide (i = k)) as [-> | Hne].
    + by rewrite !lookup_delete_eq.
    + by rewrite !lookup_delete_ne.
  - apply delete_insert_eq.
  - intros Hk. rewrite delete_insert_eq. by apply delete_id.
Qed.

(** X4. [CompareAndDelete] returns true exactly when the key holds
    [old]; then the key is removed, and otherwise the map is left as
    it was.  On a key that the map does not hold it returns false,
    whatever [old] is. *)
Theorem CompareAndDelete_contract k old m :
  ((CompareAndDelete zero k old m).1 = true ↔ m !! k = Some old) ∧
  (CompareAndDelete zero k old m).2 =
    (if (CompareAndDelete zero k old m).1 then delete k m else m) ∧
  (m !! k = None → CompareAndDelete zero k old m = (false, m)).
Proof.
  rewrite CompareAndDelete_eq.
  destruct (decide (m !! k = Some old)) as [Heq | Hne]; simpl.
  - split; [done |]. split; [done |]. intros Hk. congruence.
  - split; [split; [done | by intros ?] |]. by split.
Qed.

(** X5. On a key that the map holds, [CompareAndSwap] returns true
    exactly when the stored value is [old]; then it stores [new], and
    otherwise it leaves the map as it was. *)
Theorem CompareAndSwap_held k a old new m :
  m !! k = Some a →
  ((CompareAndSwap zero k old new m).1 = true ↔ a = old) ∧
  (CompareAndSwap zero k old new m).2 = (if decide (a = old) then <[k := new]> m else m).
Proof.
  intros Hk. rewrite (CompareAndSwap_present zero k a old new m Hk).
  destruct (decide (a = old)) as [Heq | Hne]; simpl.
  - by split.
  - split; [split; [done | by intros ?] | done].
Qed.

(** X6. The result of [CompareAndSwap] tells what it did, on every
    map: after true the key holds [new] and the other keys read as
    before; after false the map is as it was. *)
Theorem CompareAndSwap_result k old new m :
  if (CompareAndSwap zero k old new m).1
  then Load zero k (CompareAndSwap zero k old new m).2 = (new, true) ∧
       ∀ k', k' ≠ k →
         Load zero k' (CompareAndSwap zero k old new m).2 = Load zero k' m
  else (CompareAndSwap zero k old new m).2 = m.
Proof.
  rewrite CompareAndSwap_eq. case_decide; simpl; [| done]. split.
  - apply index_Some. apply lookup_insert_eq.
  - intros k' Hne. apply Load_other. by rewrite lookup_insert_ne.
Qed.

(** X7. A method called on one key never changes the entry of another
    key. *)
Theorem exec_other_key (o : op K V) k k' m :
  op_key o = Some k → k' ≠ k → (exec zero o m).2 !! k' = m !! k'.
Proof.
  intros Hop Hne. destruct o; simpl in *; simplify_eq.
  - unfold Load. by destruct (index zero m k).
  - unfold Store, Swap. destruct (index zero m k). simpl.
    by rewrite lookup_insert_ne.
  - unfold Swap. destruct (index zero m k). simpl.
    by rewrite lookup_insert_ne.
  - unfold Delete. rewrite LoadAndDelete_eq. simpl. by rewrite lookup_delete_ne.
  - rewrite LoadAndDelete_eq. destruct (index zero m k). simpl.
    by rewrite lookup_delete_ne.
  - rewrite LoadOrStore_eq. destruct (m !! k); simpl; [done |].
    by rewrite lookup_insert_ne.
  - rewrite CompareAndSwap_eq. case_decide; simpl; [| done].
    by rewrite lookup_insert_ne.
  - rewrite CompareAndDelete_eq. case_decide; simpl; [| done].
    by rewrite lookup_delete_ne.
Qed.

(** X8. [Keys] lists every key of the map exactly once, in whatever
    order the runtime iterates: no key appears twice, a key is listed
    exactly when [Load] finds it, and there are as many keys as
    entries. *)
Theorem Keys_contract order m :
  iteration_order order →
  NoDup (Keys order m) ∧
  (∀ k, k ∈ Keys order m ↔ (Load zero k m).2 = true) ∧
  length (Keys order m) = size m.
Proof.
  intros Hord. split; [by apply Keys_NoDup |]. split.
  - intros k. rewrite Load_true. by apply elem_of_Keys.
  - unfold Keys. rewrite (Hord _). unfold map_keys.
    rewrite length_fmap. by rewrite length_map_to_list.
Qed.

(** The loop of [Range] with a visitor that reads and goes on. *)
Lemma Range_loop_read_only (f : visitor K V) keys m :
  (∀ k v m', f k v m' = (true, m')) →
  (Range_loop zero f keys m).2 = m ∧
  omap visited (Range_loop zero f keys m).1 = omap (λ k, (k,.) <$> m !! k) keys.
Proof.
  intros Hf. induction keys as [| k rest [IHm IHe]]; [done |].
  rewrite Range_loop_cons. destruct (m !! k) as [v |] eqn:Hk; simpl.
  - rewrite Hf. simpl. rewrite Hk. simpl.
    split; [exact IHm |]. f_equal. exact IHe.
  - rewrite Hk. simpl. split; [exact IHm | exact IHe].
Qed.

Lemma omap_lookup_map_to_list m (l : list (K * V)) :
  (∀ k v, (k, v) ∈ l → m !! k = Some v) → omap (λ k, (k,.) <$> m !! k) l.*1 = l.
Proof.
  induction l as [| [k v] l IH]; intros Hl; [done |].
  simpl. rewrite (Hl k v) by (apply elem_of_cons; by left). simpl.
  f_equal. apply IH. intros k' v' Hin. apply Hl. apply elem_of_cons. by right.
Qed.

(** X9. [Range] with a visitor that only reads and always answers
    true goes through the whole map: the keys and values that the
    visitor is given are the entries of the map, each one once, and
    the map is left as it was. *)
Theorem Range_read_only order (f : visitor K V) m :
  iteration_order order →
  (∀ k v m', f k v m' = (true, m')) →
  omap visited (Range zero order f m).1 ≡ₚ map_to_list m ∧
  (Range zero order f m).2 = m.
Proof.
  intros Hord Hf. unfold Range.
  destruct (Range_loop_read_only f (Keys order m) m Hf) as [Hm He].
  split; [| done]. rewrite He. unfold Keys. rewrite (Hord _). unfold map_keys.
  rewrite omap_lookup_map_to_list; [done |].
  intros k v Hin. by apply elem_of_map_to_list.
Qed.

(** X10. [Range] works on the keys that the map holds when the call
    starts: every key that the loop reaches is one of them, so a key
    that the visitor adds on the way is never visited, and the visitor
    is called at most once per entry of the map at the start. *)
Theorem Range_snapshot order (f : visitor K V) m :
  iteration_order order →
  Forall (λ e, is_Some (m !! event_key e)) (Range zero order f m).1 ∧
  (length (Range zero order f m).1 ≤ size m)%nat.
Proof.
  intros Hord. unfold Range.
  pose proof (Range_loop_prefix zero f (Keys order m) m) as Hprefix.
  split.
  - apply Forall_forall. intros e He.
    apply (elem_of_Keys order m _ Hord).
    destruct Hprefix as [tail ->]. apply elem_of_app. left.
    by apply list_elem_of_fmap_2.
  - assert (Hlen : length (Keys order m) = size m).
    { unfold Keys. rewrite (Permutation_length (Hord _)). unfold map_keys.
      by rewrite length_fmap, length_map_to_list. }
    apply prefix_length in Hprefix. rewrite length_fmap in Hprefix. lia.
Qed.

(** X11. [Range] with a visitor that always answers false calls it
    once, on some entry of the map, and then stops; on an empty map
    the visitor is not called at all. *)
Theorem Range_stop_at_once order (f : visitor K V) m :
  iteration_order order →
  (∀ k v m', (f k v m').1 = false) →
  (m = ∅ → Range zero order f m = ([], m)) ∧
  (m ≠ ∅ → ∃ k v, m !! k = Some v ∧
             Range zero order f m = ([Visited k v m false], (f k v m).2)).
Proof.
  intros Hord Hf. unfold Range. split.
  - intros ->. unfold Keys, map_keys. rewrite map_to_list_empty. simpl.
    by rewrite (proj1 (Permutation_nil_r _) (Hord [])).
  - intros Hne. destruct (Keys order m) as [| k rest] eqn:Hkeys.
    + exfalso. apply Hne. apply map_to_list_empty_iff.
      unfold Keys in Hkeys. pose proof (Hord (map_keys m)) as Hperm.
      rewrite Hkeys in Hperm. apply Permutation_nil_l in Hperm.
      unfold map_keys in Hperm. symmetry in Hperm. by apply fmap_nil_inv in Hperm.
    + assert (Hin : k ∈ Keys order m) by (rewrite Hkeys; apply elem_of_cons; by left).
      apply (elem_of_Keys order m k Hord) in Hin as [v Hv].
      exists k, v. split; [done |].
      rewrite Range_loop_cons. rewrite Hv. by rewrite Hf.
Qed.

(** Once the key is in the map, every section of a racing
    [LoadOrStore] returns the value it holds and leaves the map. *)
Lemma race_present key (schedule : list (racer V)) a m :
  m !! key = Some a →
  Forall (λ r, r = (a, true)) (race zero key schedule m).1 ∧
  (race zero key schedule m).2 = m.
Proof.
  intros Hk. induction schedule as [| s rest [IHr IHm]]; [by split |].
  simpl. destruct s as [| value]; simpl.
  - unfold Load. rewrite (index_Some zero m key a Hk).
    destruct (race zero key rest m) as [results m'']. simpl in *.
    split; [by constructor | done].
  - rewrite LoadOrStore_locked_spec. rewrite Hk.
    destruct (race zero key rest m) as [results m'']. simpl in *.
    split; [by constructor | done].
Qed.

(** X12. Goroutines racing through [LoadOrStore] on a key that the map
    does not hold, in any schedule of their critical sections: the
    first one to take the write lock stores its value and is the only
    one that is told [loaded = false]; every other call returns that
    same value with [loaded = true]; and no call returns before that. *)
Theorem LoadOrStore_race key (schedule : list (racer V)) m :
  m !! key = None →
  let results := (race zero key schedule m).1 in
  (results = [] ∧ Forall (λ s, s = Fast) schedule) ∨
  (∃ v rest,
     results = (v, false) :: rest ∧
     Forall (λ r, r = (v, true)) rest ∧
     Locked v ∈ schedule ∧
     (race zero key schedule m).2 = <[key := v]> m).
Proof.
  intros Hk. induction schedule as [| s rest IH]; simpl.
  - left. by split.
  - destruct s as [| value]; simpl.
    + unfold Load. rewrite (index_None zero m key Hk).
      destruct (race zero key rest m) as [results m''] eqn:Hrace. simpl in *.
      destruct IH as [[-> Hfast] | (v & tail & -> & Hall & Hin & ->)].
      * left. split; [done | by constructor].
      * right. exists v, tail. split; [done |]. split; [done |].
        split; [| done]. apply elem_of_cons. by right.
    + rewrite LoadOrStore_locked_spec. rewrite Hk.
      destruct (race_present key rest value (<[key := value]> m)) as [Hall Hm];
        [apply lookup_insert_eq |].
      destruct (race zero key rest (<[key := value]> m)) as [results m''].
      simpl in *. right. exists value, results. split; [done |].
      split; [done |]. split; [| done]. apply elem_of_cons. by left.
Qed.

End SyncMapContracts.

(** * Further properties of package ratelim *)

Section OriginNormal.

Import ratelim.

Variable ToLower : string → string.

Lemma strip_leading_zeros_zeros (n : nat) (port : string) :
  strip_leading_zeros (zeros n ++ port) = strip_leading_zeros port.
Proof. induction n as [| n IH]; [done |]. exact IH. Qed.

Lemma zeros_empty (n : nat) : (zeros n ++ "")%string = zeros n.
Proof. induction n as [| n IH]; [done |]. exact (f_equal (String "0") IH). Qed.

(** The key depends on the scheme, the lower-cased host and the port
    without its leading zeros, and on nothing else of the URL. *)
Lemma Origin_ext (u1 u2 : URL) :
  Scheme u1 = Scheme u2 →
  ToLower (Hostname u1) = ToLower (Hostname u2) →
  strip_leading_zeros (Port u1) = strip_leading_zeros (Port u2) →
  Origin ToLower u1 = Origin ToLower u2.
Proof.
  intros Hs Hh Hp. unfold Origin. rewrite !TrimLeft_zero.
  by rewrite Hs, Hh, Hp.
Qed.

(** The key of an URL whose port, zeros stripped, is [port]. *)
Lemma Origin_stripped (u : URL) :
  Origin ToLower u =
    if String.eqb (strip_leading_zeros (Port u)) "" then
      (Scheme u ++ "://" ++ ToLower (Hostname u))%string
    else if decide (conventional_port (Scheme u) = Some (strip_leading_zeros (Port u))) then
      (Scheme u ++ "://" ++ ToLower (Hostname u))%string
    else
      (Scheme u ++ "://" ++ ToLower (Hostname u) ++ ":" ++ strip_leading_zeros (Port u))%string.
Proof.
  unfold Origin. rewrite TrimLeft_zero, defaultPorts_lookup.
  destruct (String.eqb (strip_leading_zeros (Port u)) ""); [done |].
  destruct (conventional_port (Scheme u)) as [defaultPort |].
  - destruct (String.eqb_spec (strip_leading_zeros (Port u)) defaultPort) as [-> | Hne].
    + by rewrite decide_True.
    + rewrite decide_False; [done | congruence].
  - by rewrite decide_False.
Qed.

(** X13. Leading zeros of the port do not change the key, and neither
    does the rest of the URL; a port made of zeros only counts as no
    port. *)
Theorem Origin_leading_zeros (scheme host port text text' : string) (n : nat) :
  Origin ToLower (mkURL scheme host (zeros n ++ port) text)
    = Origin ToLower (mkURL scheme host port text') ∧
  Origin ToLower (mkURL scheme host (zeros n) text)
    = (scheme ++ "://" ++ ToLower host)%string.
Proof.
  split.
  - apply Origin_ext; simpl; [done | done |]. apply strip_leading_zeros_zeros.
  - rewrite Origin_stripped. simpl.
    rewrite <- (zeros_empty n). by rewrite strip_leading_zeros_zeros.
Qed.

(** X14. The port is dropped only where it is the conventional one:
    port 80 on http and port 443 on https give the key without a
    port, with or without leading zeros, while 443 on http and 80 on
    https stay in the key. *)
Theorem Origin_default_port (host text : string) (n : nat) :
  Origin ToLower (mkURL "http" host (zeros n ++ "80") text)
    = ("http://" ++ ToLower host)%string ∧
  Origin ToLower (mkURL "https" host (zeros n ++ "443") text)
    = ("https://" ++ ToLower host)%string ∧
  Origin ToLower (mkURL "http" host (zeros n ++ "443") text)
    = ("http://" ++ ToLower host ++ ":443")%string ∧
  Origin ToLower (mkURL "https" host (zeros n ++ "80") text)
    = ("https://" ++ ToLower host ++ ":80")%string.
Proof.
  repeat split; rewrite Origin_stripped; simpl;
    rewrite strip_leading_zeros_zeros; reflexivity.
Qed.

(** X15. On a scheme other than http and https every port that is not
    zero stays in the key, with its leading zeros stripped. *)
Theorem Origin_other_scheme (u : URL) :
  Scheme u ≠ "http"%string → Scheme u ≠ "https"%string →
  strip_leading_zeros (Port u) ≠ EmptyString →
  Origin ToLower u =
    (Scheme u ++ "://" ++ ToLower (Hostname u) ++ ":" ++ strip_leading_zeros (Port u))%string.
Proof.
  intros Hhttp Hhttps Hport. rewrite Origin_stripped.
  destruct (String.eqb_spec (strip_leading_zeros (Port u)) "") as [Heq | _]; [done |].
  unfold conventional_port.
  destruct (String.eqb_spec (Scheme u) "http") as [Heq | _]; [done |].
  destruct (String.eqb_spec (Scheme u) "https") as [Heq | _]; [done |].
  by rewrite decide_False.
Qed.

End OriginNormal.

Section RoundTripperReach.

Import ratelim.

Context {K : Type} `{Countable K}.
Context {Limit LimiterState Response Error : Type}.
Variable NewLimiter : Limit → Z → LimiterState.
Variable Wait : LimiterState → nat → Z → option Error * LimiterState * Z.
Variable Transport : Request → Z → (option Response * option Error) * Z.
Variable keyFunc : Request → K.

Local Abbreviation State := (@State K _ _ Limit LimiterState).
Local Abbreviation Limiter := (Limiter NewLimiter keyFunc).
Local Abbreviation RoundTrip := (RoundTrip NewLimiter Wait Transport keyFunc).
Local Abbreviation step := (step NewLimiter Wait Transport keyFunc).
Local Abbreviation run := (run NewLimiter Wait Transport keyFunc).
Local Abbreviation Key := (Key keyFunc).
Local Abbreviation New := (@NewPerKeyRoundTripper K _ _ Limit LimiterState).

Implicit Types (t : State) (req : Request) (key : K) (a : nat) (p : LimiterPtr).

Lemma well_formed_New (limit : Limit) (burst now : Z) : well_formed (New limit burst now).
Proof.
  split.
  - intros k p Hk. simpl in Hk. unfold syncmap.New in Hk. by rewrite lookup_empty in Hk.
  - intros k1 k2 p Hk. simpl in Hk. unfold syncmap.New in Hk. by rewrite lookup_empty in Hk.
Qed.

(** Removing entries keeps a registry well formed. *)
Lemma well_formed_subseteq t (m : gmap K LimiterPtr) :
  well_formed t → m ⊆ limiters t →
  well_formed (mkState (defaultLimit t) (defaultBurst t) m (Logger t)
                 (heap t) (clock t) (sent t) (logged t)).
Proof.
  intros [Hvalid Hinj] Hsub. split; simpl.
  - intros k p Hk. apply (Hvalid k). by eapply lookup_weaken.
  - intros k1 k2 p Hk1 Hk2. apply (Hinj k1 k2 p); by eapply lookup_weaken.
Qed.

Lemma Limiter_well_formed req t : well_formed t → well_formed (Limiter req t).2.
Proof.
  intros [Hvalid Hinj]. rewrite Limiter_eq. simpl.
  destruct (limiters t !! Key req) as [p0 |] eqn:Hkey;
    [rewrite (LoadOrStore_present None _ _ p0 _ Hkey)
    | rewrite (LoadOrStore_absent None _ _ _ Hkey)]; simpl.
  - split; simpl.
    + intros k p Hk. destruct (Hvalid k p Hk) as (a & -> & Hlt).
      exists a. split; [done |]. rewrite length_app. simpl. lia.
    + exact Hinj.
  - split; simpl.
    + intros k p Hk. rewrite length_app. simpl.
      destruct (decide (k = Key req)) as [-> | Hne].
      * rewrite lookup_insert_eq in Hk. injection Hk as <-.
        exists (length (heap t)). split; [done | lia].
      * rewrite lookup_insert_ne in Hk by done.
        destruct (Hvalid k p Hk) as (a & -> & Hlt). exists a. split; [done | lia].
    + intros k1 k2 p Hk1 Hk2.
      destruct (decide (k1 = Key req)) as [-> | Hne1];
        destruct (decide (k2 = Key req)) as [-> | Hne2]; [done | | |].
      * rewrite lookup_insert_eq in Hk1. injection Hk1 as <-.
        rewrite lookup_insert_ne in Hk2 by done.
        destruct (Hvalid k2 _ Hk2) as (a & [= <-] & Hlt). lia.
      * rewrite lookup_insert_eq in Hk2. injection Hk2 as <-.
        rewrite lookup_insert_ne in Hk1 by done.
        destruct (Hvalid k1 _ Hk1) as (a & [= <-] & Hlt). lia.
      * rewrite lookup_insert_ne in Hk1 by done.
        rewrite lookup_insert_ne in Hk2 by done. by apply (Hinj k1 k2 p).
Qed.

(** In a well-formed state [Limiter] returns a limiter of the heap. *)
Lemma Limiter_valid req t :
  well_formed t →
  ∃ a l, (Limiter req t).1 = Some a ∧ heap (Limiter req t).2 !! a = Some l.
Proof.
  intros Hwf. apply (Limiter_well_formed req) in Hwf as [Hvalid _].
  destruct (Hvalid _ _ (Limiter_lookup NewLimiter keyFunc req t)) as (a & Hptr & Hlt).
  apply lookup_lt_is_Some in Hlt as [l Hl]. by exists a, l.
Qed.

(** What [RoundTrip] is, step by step, once the limiter is known to be
    in the heap. *)
Lemma RoundTrip_eq req t a l :
  (Limiter req t).1 = Some a →
  heap (Limiter req t).2 !! a = Some l →
  let t1 := (Limiter req t).2 in
  let w := Wait l (Ctx req) (clock t) in
  let heap2 := <[a := w.1.2]> (heap t1) in
  RoundTrip req t =
    match w.1.1 with
    | Some err =>
        Some ((None, Some err),
              mkState (defaultLimit t) (defaultBurst t) (limiters t1) (Logger t)
                heap2 w.2 (sent t) (logged t))
    | None =>
        Some ((Transport req w.2).1,
              mkState (defaultLimit t) (defaultBurst t) (limiters t1) (Logger t)
                heap2 (Transport req w.2).2 (sent t ++ [req])
                (log_trace keyFunc req (clock t) (Since (clock t) w.2)
                   (Transport req w.2).2 (Logger t) (logged t)))
    end.
Proof.
  intros Hptr Hl. simpl. unfold ratelim.RoundTrip, wait_on.
  pose proof (Limiter_eq NewLimiter keyFunc req t) as Hlim.
  destruct (Limiter req t) as [limiter t1]. simpl in *. subst limiter.
  rewrite Hl. injection Hlim as _ ->. simpl.
  destruct (Wait l (Ctx req) (clock t)) as [[[err |] l'] now2]; simpl; [done |].
  by destruct (Transport req now2) as [answer now3].
Qed.

Lemma RoundTrip_well_formed req t :
  well_formed t →
  ∃ answer t', RoundTrip req t = Some (answer, t') ∧ well_formed t'.
Proof.
  intros Hwf. destruct (Limiter_valid req t Hwf) as (a & l & Hptr & Hl).
  rewrite (RoundTrip_eq req t a l Hptr Hl).
  pose proof (Limiter_well_formed req t Hwf) as [Hvalid Hinj].
  destruct ((Wait l (Ctx req) (clock t)).1.1); eexists _, _; (split; [reflexivity |]);
    (split; simpl; [| exact Hinj]);
    intros k p Hk; destruct (Hvalid k p Hk) as (a' & -> & Hlt);
    exists a'; (split; [done |]); by rewrite length_insert.
Qed.

Lemma step_well_formed (c : call) t :
  plain c → well_formed t → well_formed (step c t).2.
Proof.
  intros Hplain Hwf.
  destruct c as [o | req | | limit burst | logger | req]; simpl.
  - unfold Limiters.
    destruct o as [k | k v | k v | k | k | k v | k old new | k old | order f | order | | f];
      simpl in Hplain; simpl.
    + unfold syncmap.Load. destruct (syncmap.index None (limiters t) k).
      by destruct t.
    + done.
    + done.
    + unfold syncmap.Delete. rewrite LoadAndDelete_eq. simpl.
      apply well_formed_subseteq; [done | apply delete_subseteq].
    + rewrite LoadAndDelete_eq. destruct (syncmap.index None (limiters t) k). simpl.
      apply well_formed_subseteq; [done | apply delete_subseteq].
    + done.
    + done.
    + rewrite CompareAndDelete_eq. case_decide; simpl; [| by destruct t].
      apply well_formed_subseteq; [done | apply delete_subseteq].
    + done.
    + by destruct t.
    + apply well_formed_subseteq; [done | apply map_empty_subseteq].
    + done.
  - pose proof (Limiter_well_formed req t Hwf). by destruct (Limiter req t).
  - done.
  - done.
  - done.
  - destruct (RoundTrip_well_formed req t Hwf) as (answer & t' & -> & Hwf').
    by destruct answer.
Qed.

Lemma run_well_formed (cs : list call) t :
  Forall plain cs → well_formed t → well_formed (run cs t).2.
Proof.
  intros Hall. revert t. induction Hall as [| c cs Hc Hcs IH]; intros t Hwf; [done |].
  simpl. pose proof (step_well_formed c t Hc Hwf) as Hstep.
  destruct (step c t) as [ans t1]. simpl in Hstep.
  specialize (IH t1 Hstep). by destruct (run cs t1).
Qed.

(** The fields of the round tripper that [RoundTrip] does not touch. *)
Lemma RoundTrip_fields req t answer t' :
  RoundTrip req t = Some (answer, t') →
  defaultLimit t' = defaultLimit t ∧ defaultBurst t' = defaultBurst t ∧
  Logger t' = Logger t ∧ (Logger t = None → logged t' = logged t).
Proof.
  unfold ratelim.RoundTrip.
  pose proof (Limiter_eq NewLimiter keyFunc req t) as Hlim.
  destruct (Limiter req t) as [limiter t1]. injection Hlim as _ ->. simpl.
  destruct (wait_on Wait limiter req _) as [[[[err |] heap2] now2] |]; [| | done].
  - by intros [= <- <-].
  - destruct (Transport req now2) as [answer' now3]. intros [= <- <-]. simpl.
    repeat split. by intros ->.
Qed.

(** X16. In a round tripper that has only been used through its own
    methods and the reading and removing methods of its registry, two
    different keys never share a limiter, and every registered limiter
    is a limiter object, never nil. *)
Theorem distinct_keys_distinct_limiters (limit : Limit) (burst now : Z)
    (cs : list call) (k1 k2 : K) (p1 p2 : LimiterPtr) :
  Forall plain cs →
  let t := (run cs (New limit burst now)).2 in
  k1 ≠ k2 →
  limiters t !! k1 = Some p1 →
  limiters t !! k2 = Some p2 →
  p1 ≠ p2 ∧ ∃ a l, p1 = Some a ∧ heap t !! a = Some l.
Proof.
  intros Hplain t Hne Hk1 Hk2.
  destruct (run_well_formed cs _ Hplain (well_formed_New limit burst now))
    as [Hvalid Hinj]. fold t in Hvalid, Hinj.
  split.
  - intros ->. apply Hne. by apply (Hinj k1 k2 p2).
  - destruct (Hvalid k1 p1 Hk1) as (a & -> & Hlt).
    apply lookup_lt_is_Some in Hlt as [l Hl]. by exists a, l.
Qed.


(** X18. In such a round tripper a [RoundTrip] for one key leaves the
    limiters of the other keys alone: they stay registered and their
    limiter objects are not changed by the wait. *)
Theorem RoundTrip_isolation (limit : Limit) (burst now : Z) (cs : list call)
    req answer t' (k' : K) (a' : nat) :
  Forall plain cs →
  let t := (run cs (New limit burst now)).2 in
  RoundTrip req t = Some (answer, t') →
  k' ≠ Key req →
  limiters t !! k' = Some (Some a') →
  limiters t' !! k' = Some (Some a') ∧ heap t' !! a' = heap t !! a'.
Proof.
  intros Hplain t Hrt Hne Hk'.
  pose proof (run_well_formed cs _ Hplain (well_formed_New limit burst now)) as Hwf.
  fold t in Hwf.
  destruct (Limiter_valid req t Hwf) as (a & l & Hptr & Hl).
  pose proof (Limiter_well_formed req t Hwf) as [_ Hinj1].
  pose proof (Limiter_keeps NewLimiter keyFunc req k' (Some a') t Hk') as Hk1.
  pose proof (Limiter_lookup NewLimiter keyFunc req t) as Hkey1.
  rewrite Hptr in Hkey1.
  assert (Hdiff : a ≠ a').
  { intros ->. apply Hne. by apply (Hinj1 k' (Key req) (Some a')). }
  destruct Hwf as [Hvalid _]. destruct (Hvalid k' _ Hk') as (? & [= <-] & Hlt).
  rewrite (RoundTrip_eq req t a l Hptr Hl) in Hrt.
  assert (Hheap : heap (Limiter req t).2 !! a' = heap t !! a').
  { rewrite Limiter_eq. simpl. by apply lookup_app_l. }
  destruct ((Wait l (Ctx req) (clock t)).1.1); injection Hrt as _ <-; simpl;
    (split; [done |]); by rewrite list_lookup_insert_ne.
Qed.

(** X19. In such a round tripper, after [Clear], or after [Delete] of
    the key of a request, [Limiter] builds the limiter of the request
    anew: it returns a new limiter object, made with the current
    defaults, that no key has held before. *)
Theorem Limiter_fresh_after_removal (limit : Limit) (burst now : Z)
    (cs : list call) (c : call) req :
  Forall plain cs →
  let t := (run cs (New limit burst now)).2 in
  c = CMap syncmap.OClear ∨ c = CMap (syncmap.ODelete (Key req)) →
  let t1 := (step c t).2 in
  ∃ a,
    (Limiter req t1).1 = Some a ∧
    heap t !! a = None ∧
    heap (Limiter req t1).2 !! a = Some (NewLimiter (defaultLimit t) (defaultBurst t)) ∧
    ∀ k, limiters t !! k ≠ Some (Some a).
Proof.
  intros Hplain t Hc t1.
  destruct (run_well_formed cs _ Hplain (well_formed_New limit burst now))
    as [Hvalid _]. fold t in Hvalid.
  assert (Ht1 : limiters t1 !! Key req = None ∧ heap t1 = heap t ∧
                defaultLimit t1 = defaultLimit t ∧ defaultBurst t1 = defaultBurst t).
  { subst t1. destruct Hc as [-> | ->]; simpl.
    - split; [apply lookup_empty | done].
    - unfold syncmap.Delete. rewrite LoadAndDelete_eq. simpl.
      split; [apply lookup_delete_eq | done]. }
  destruct Ht1 as (Hkey & Hheap & Hlimit & Hburst).
  exists (length (heap t)). rewrite Limiter_eq. simpl.
  rewrite (LoadOrStore_absent None _ _ _ Hkey). simpl.
  rewrite Hheap, Hlimit, Hburst. split; [done |].
  split; [by apply lookup_ge_None |]. split.
  - rewrite lookup_app_r; [| done]. by rewrite Nat.sub_diag.
  - intros k Hk. destruct (Hvalid k _ Hk) as (a & [= <-] & Hlt). lia.
Qed.

(** X20. A [RoundTrip] that returns, with a response or with the error
    of a cancelled wait, leaves the limiter of its key registered, and
    never removes or replaces a limiter that was registered; the
    defaults and the logger are as before. *)
Theorem RoundTrip_registers req t answer t' :
  RoundTrip req t = Some (answer, t') →
  limiters t' !! Key req = Some (Limiter req t).1 ∧
  (∀ k p, limiters t !! k = Some p → limiters t' !! k = Some p) ∧
  LimiterDefaults t' = LimiterDefaults t ∧
  Logger t' = Logger t.
Proof.
  intros Hrt.
  pose proof (RoundTrip_limiters NewLimiter Wait Transport keyFunc _ _ _ _ Hrt) as Hl.
  destruct (RoundTrip_fields _ _ _ _ Hrt) as (Hlimit & Hburst & Hlogger & _).
  rewrite Hl. split; [apply Limiter_lookup |]. split.
  - intros k p Hk. by apply Limiter_keeps.
  - unfold LimiterDefaults. by rewrite Hlimit, Hburst.
Qed.

(** A call other than the assignment of [Logger]. *)
Lemma step_quiet (c : call) t :
  (∀ logger, c ≠ CSetLogger logger) → Logger t = None →
  Logger (step c t).2 = None ∧ logged (step c t).2 = logged t.
Proof.
  intros Hc Hnone. destruct c as [o | req | | limit burst | logger | req]; simpl.
  - by destruct (syncmap.exec None o (Limiters t)).
  - rewrite Limiter_eq. by simpl.
  - done.
  - done.
  - by destruct (Hc logger).
  - destruct (RoundTrip req t) as [[[resp err] t'] |] eqn:Hrt; simpl; [| done].
    destruct (RoundTrip_fields _ _ _ _ Hrt) as (_ & _ & Hlogger & Hlogged).
    split; [congruence | by apply Hlogged].
Qed.

(** X21. A new round tripper has no logger: whatever is done with it,
    nothing is logged until [Logger] is assigned. *)
Theorem quiet_by_default (limit : Limit) (burst now : Z) (cs : list call) :
  Forall (λ c, ∀ logger, c ≠ CSetLogger logger) cs →
  logged (run cs (New limit burst now)).2 = [].
Proof.
  intros Hall.
  assert (Hgen : ∀ t, Logger t = None →
                      Logger (run cs t).2 = None ∧ logged (run cs t).2 = logged t).
  { induction Hall as [| c cs Hc Hcs IH]; intros t Hnone; [done |].
    simpl. destruct (step_quiet c t Hc Hnone) as [Hl1 Hl2].
    destruct (step c t) as [ans t1]. simpl in *.
    destruct (IH t1 Hl1) as [Hl3 Hl4].
    destruct (run cs t1) as [answers t2]. simpl in *. split; [done | congruence]. }
  by destruct (Hgen (New limit burst now) eq_refl) as [_ ->].
Qed.

Lemma Since_exact (start now : Z) :
  start ≤ now → now - start ≤ maxDuration → Since start now = now - start.
Proof.
  unfold Since, minDuration, maxDuration. intros Hle Hmax.
  rewrite Z.min_r by lia. rewrite Z.max_r by lia. done.
Qed.

(** Milliseconds of two spans and of their sum. *)
Lemma Milliseconds_add (x y : Z) :
  0 ≤ x → 0 ≤ y →
  0 ≤ Milliseconds x ∧ 0 ≤ Milliseconds y ∧
  Milliseconds x + Milliseconds y ≤ Milliseconds (x + y) ∧
  Milliseconds (x + y) ≤ Milliseconds x + Milliseconds y + 1.
Proof.
  intros Hx Hy. unfold Milliseconds.
  rewrite !Z.quot_div_nonneg by lia.
  pose proof (Z.div_mod x 1000000 ltac:(lia)) as Ex.
  pose proof (Z.div_mod y 1000000 ltac:(lia)) as Ey.
  pose proof (Z.div_mod (x + y) 1000000 ltac:(lia)) as Exy.
  pose proof (Z.mod_pos_bound x 1000000 ltac:(lia)) as Bx.
  pose proof (Z.mod_pos_bound y 1000000 ltac:(lia)) as By.
  pose proof (Z.mod_pos_bound (x + y) 1000000 ltac:(lia)) as Bxy.
  lia.
Qed.

(** X22. With a clock that does not go backwards, the record of an
    admitted dispatch holds the whole milliseconds of the wait, of the
    call of the wrapped round tripper and of both together; the wait
    and the call add up to the total or to one millisecond less. *)
Theorem RoundTrip_trace_times req t heap2 now2 (id : nat) :
  wait_on Wait (Limiter req t).1 req (Limiter req t).2 = Some (None, heap2, now2) →
  Logger t = Some (Sink id) →
  clock t ≤ now2 →
  now2 ≤ (Transport req now2).2 →
  (Transport req now2).2 - clock t ≤ maxDuration →
  let now3 := (Transport req now2).2 in
  ∃ answer t' r,
    RoundTrip req t = Some (answer, t') ∧
    logged t' = logged t ++ [r] ∧
    trace_wait r = Z.quot (now2 - clock t) 1000000 ∧
    trace_resp r = Z.quot (now3 - now2) 1000000 ∧
    trace_total r = Z.quot (now3 - clock t) 1000000 ∧
    0 ≤ trace_wait r ∧ 0 ≤ trace_resp r ∧
    trace_wait r + trace_resp r ≤ trace_total r ∧
    trace_total r ≤ trace_wait r + trace_resp r + 1.
Proof.
  intros Hwait Hlogger Hle2 Hle3 Hmax now3. unfold ratelim.RoundTrip.
  pose proof (Limiter_eq NewLimiter keyFunc req t) as Hlim.
  destruct (Limiter req t) as [limiter t1]. simpl in Hwait. rewrite Hwait.
  subst now3. destruct (Transport req now2) as [answer now3]. simpl in *.
  injection Hlim as _ ->. simpl. rewrite Hlogger. simpl.
  eexists _, _, _. split; [reflexivity |]. simpl. split; [reflexivity |]. simpl.
  rewrite (Duration_sub_Since (clock t) now2 now3) by lia.
  rewrite !Since_exact by lia.
  destruct (Milliseconds_add (now2 - clock t) (now3 - now2)) as (H1 & H2 & H3 & H4);
    [lia | lia |].
  replace (now2 - clock t + (now3 - now2)) with (now3 - clock t) in * by lia.
  unfold Milliseconds in *. by repeat split.
Qed.

End RoundTripperReach.

Section PerOrigin.

Import ratelim.

Context {Limit LimiterState : Type}.
Variable ToLower : string → string.
Variable NewLimiter : Limit → Z → LimiterState.

Local Abbreviation Limiter := (Limiter NewLimiter (TargetOrigin ToLower)).

(** X23. With the origin as the key, requests whose URLs have the same
    scheme, hosts that are the same in lower case and ports that are
    the same without their leading zeros are limited together: the
    second one gets the limiter of the first. *)
Theorem same_origin_same_limiter (r1 r2 : Request) (t : @State string _ _ Limit LimiterState) :
  Scheme (Url r1) = Scheme (Url r2) →
  ToLower (Hostname (Url r1)) = ToLower (Hostname (Url r2)) →
  strip_leading_zeros (Port (Url r1)) = strip_leading_zeros (Port (Url r2)) →
  (Limiter r2 (Limiter r1 t).2).1 = (Limiter r1 t).1 ∧
  limiters (Limiter r2 (Limiter r1 t).2).2 = limiters (Limiter r1 t).2.
Proof.
  intros Hs Hh Hp.
  assert (Hkey : Key (TargetOrigin ToLower) r2 = Key (TargetOrigin ToLower) r1).
  { unfold Key, TargetOrigin. symmetry. by apply Origin_ext. }
  apply Limiter_present. rewrite Hkey. apply Limiter_lookup.
Qed.

End PerOrigin.

(** * The further properties at work on examples *)

Section MoreExamples.

Import ratelim example.

Local Abbreviation step := (ratelim.step NewLimiter Wait Transport keyFunc).
Local Abbreviation run := (ratelim.run NewLimiter Wait Transport keyFunc).
Local Abbreviation Limiter := (ratelim.Limiter NewLimiter keyFunc).
Local Abbreviation RoundTrip := (ratelim.RoundTrip NewLimiter Wait Transport keyFunc).
Local Abbreviation New := (@NewPerKeyRoundTripper string _ _ Z (Z * Z)).
Local Abbreviation unordered := (λ l : list nat, l).

Lemma unordered_order : syncmap.iteration_order unordered.
Proof. intros l. reflexivity. Defined.

Lemma own_traffic_plain : Forall plain own_traffic.
Proof. repeat constructor. Defined.

Lemma Delete_Store_witness :
  numbers !! 5%nat = None ∧
  syncmap.Delete 0%nat 5%nat (syncmap.Store 0%nat 5%nat 50%nat numbers) = numbers.
Proof.
  assert (Hk : numbers !! 5%nat = None) by (vm_compute; reflexivity).
  split; [exact Hk |].
  exact (proj2 (proj2 (Delete_Store 0%nat 5%nat 50%nat numbers)) Hk).
Defined.

Lemma CompareAndSwap_held_witness :
  numbers !! 2%nat = Some 20%nat ∧
  ((syncmap.CompareAndSwap 0%nat 2%nat 20%nat 21%nat numbers).1 = true ↔ 20%nat = 20%nat) ∧
  (syncmap.CompareAndSwap 0%nat 2%nat 20%nat 21%nat numbers).2
    = (if decide (20%nat = 20%nat) then <[2%nat := 21%nat]> numbers else numbers).
Proof.
  assert (Hk : numbers !! 2%nat = Some 20%nat) by (vm_compute; reflexivity).
  split; [exact Hk |].
  exact (CompareAndSwap_held 0%nat 2%nat 20%nat 20%nat 21%nat numbers Hk).
Defined.

Lemma exec_other_key_witness :
  syncmap.op_key (syncmap.OStore 2%nat 5%nat) = Some 2%nat ∧
  1%nat ≠ 2%nat ∧
  (syncmap.exec 0%nat (syncmap.OStore 2%nat 5%nat) numbers).2 !! 1%nat = numbers !! 1%nat.
Proof.
  assert (Hop : syncmap.op_key (syncmap.OStore 2%nat 5%nat) = Some 2%nat) by reflexivity.
  assert (Hne : 1%nat ≠ 2%nat) by discriminate.
  split; [exact Hop |]. split; [exact Hne |].
  exact (exec_other_key 0%nat (syncmap.OStore 2%nat 5%nat) 2%nat 1%nat numbers Hop Hne).
Defined.

Lemma Keys_contract_witness :
  syncmap.iteration_order unordered ∧
  NoDup (syncmap.Keys unordered numbers) ∧
  (∀ k, k ∈ syncmap.Keys unordered numbers ↔ (syncmap.Load 0%nat k numbers).2 = true) ∧
  length (syncmap.Keys unordered numbers) = size numbers.
Proof.
  split; [exact unordered_order |].
  exact (Keys_contract 0%nat unordered numbers unordered_order).
Defined.

Lemma Range_read_only_witness :
  syncmap.iteration_order unordered ∧
  (∀ k v m', read_on k v m' = (true, m')) ∧
  omap syncmap.visited (syncmap.Range 0%nat unordered read_on numbers).1
    ≡ₚ map_to_list numbers ∧
  (syncmap.Range 0%nat unordered read_on numbers).2 = numbers.
Proof.
  assert (Hf : ∀ k v m', read_on k v m' = (true, m')) by (intros; reflexivity).
  split; [exact unordered_order |]. split; [exact Hf |].
  exact (Range_read_only 0%nat unordered read_on numbers unordered_order Hf).
Defined.

Lemma Range_snapshot_witness :
  syncmap.iteration_order unordered ∧
  Forall (λ e, is_Some (numbers !! syncmap.event_key e))
    (syncmap.Range 0%nat unordered add_more numbers).1 ∧
  (length (syncmap.Range 0%nat unordered add_more numbers).1 ≤ size numbers)%nat.
Proof.
  split; [exact unordered_order |].
  exact (Range_snapshot 0%nat unordered add_more numbers unordered_order).
Defined.

Lemma Range_stop_at_once_witness :
  syncmap.iteration_order unordered ∧
  (∀ k v m', (stop_now k v m').1 = false) ∧
  ∃ k v, numbers !! k = Some v ∧
    syncmap.Range 0%nat unordered stop_now numbers
      = ([syncmap.Visited k v numbers false], (stop_now k v numbers).2).
Proof.
  assert (Hf : ∀ k v m', (stop_now k v m').1 = false) by (intros; reflexivity).
  split; [exact unordered_order |]. split; [exact Hf |].
  apply (proj2 (Range_stop_at_once 0%nat unordered stop_now numbers unordered_order Hf)).
  intros Hempty. apply (f_equal (λ m : gmap nat nat, m !! 1%nat)) in Hempty.
  vm_compute in Hempty. discriminate.
Defined.

Lemma LoadOrStore_race_witness :
  numbers !! 5%nat = None ∧
  let results := (syncmap.race 0%nat 5%nat five_racers numbers).1 in
  (results = [] ∧ Forall (λ s, s = syncmap.Fast) five_racers) ∨
  (∃ v rest,
     results = (v, false) :: rest ∧
     Forall (λ r, r = (v, true)) rest ∧
     syncmap.Locked v ∈ five_racers ∧
     (syncmap.race 0%nat 5%nat five_racers numbers).2 = <[5%nat := v]> numbers).
Proof.
  assert (Hk : numbers !! 5%nat = None) by (vm_compute; reflexivity).
  split; [exact Hk |].
  exact (LoadOrStore_race 0%nat 5%nat five_racers numbers Hk).
Defined.

Lemma Origin_other_scheme_witness :
  let u := mkURL "ftp" "Files.Example.com" "0021" "ftp://Files.Example.com:0021/" in
  Scheme u ≠ "http"%string ∧ Scheme u ≠ "https"%string ∧
  strip_leading_zeros (Port u) ≠ EmptyString ∧
  Origin ascii_ToLower u = "ftp://files.example.com:21"%string.
Proof.
  intros u.
  assert (H1 : Scheme u ≠ "http"%string) by discriminate.
  assert (H2 : Scheme u ≠ "https"%string) by discriminate.
  assert (H3 : strip_leading_zeros (Port u) ≠ EmptyString) by discriminate.
  split; [exact H1 |]. split; [exact H2 |]. split; [exact H3 |].
  exact (Origin_other_scheme ascii_ToLower u H1 H2 H3).
Defined.

Lemma distinct_keys_distinct_limiters_witness :
  let t := (run own_traffic (New 5 1 0)).2 in
  Forall plain own_traffic ∧
  "http://example.com"%string ≠ "http://example.org:8080"%string ∧
  limiters t !! "http://example.com"%string = Some (Some 0%nat) ∧
  limiters t !! "http://example.org:8080"%string = Some (Some 3%nat) ∧
  Some 0%nat ≠ Some 3%nat ∧
  ∃ a l, Some 0%nat = Some a ∧ heap t !! a = Some l.
Proof.
  intros t.
  assert (Hne : "http://example.com"%string ≠ "http://example.org:8080"%string)
    by discriminate.
  assert (H1 : limiters t !! "http://example.com"%string = Some (Some 0%nat))
    by (vm_compute; reflexivity).
  assert (H2 : limiters t !! "http://example.org:8080"%string = Some (Some 3%nat))
    by (vm_compute; reflexivity).
  split; [exact own_traffic_plain |]. split; [exact Hne |].
  split; [exact H1 |]. split; [exact H2 |].
  exact (distinct_keys_distinct_limiters NewLimiter Wait Transport keyFunc 5 1 0
           own_traffic _ _ _ _ own_traffic_plain Hne H1 H2).
Defined.


Lemma RoundTrip_isolation_witness :
  let t := (run own_traffic (New 5 1 0)).2 in
  let t' := (step (CRoundTrip first) t).2 in
  Forall plain own_traffic ∧
  RoundTrip first t = Some ((Some 200, None), t') ∧
  "http://example.org:8080"%string ≠ Key keyFunc first ∧
  limiters t !! "http://example.org:8080"%string = Some (Some 3%nat) ∧
  limiters t' !! "http://example.org:8080"%string = Some (Some 3%nat) ∧
  heap t' !! 3%nat = heap t !! 3%nat.
Proof.
  intros t t'.
  assert (Hrt : RoundTrip first t = Some ((Some 200, None), t'))
    by (vm_compute; reflexivity).
  assert (Hne : "http://example.org:8080"%string ≠ Key keyFunc first) by discriminate.
  assert (Hk : limiters t !! "http://example.org:8080"%string = Some (Some 3%nat))
    by (vm_compute; reflexivity).
  split; [exact own_traffic_plain |]. split; [exact Hrt |].
  split; [exact Hne |]. split; [exact Hk |].
  exact (RoundTrip_isolation NewLimiter Wait Transport keyFunc 5 1 0 own_traffic
           first _ t' _ 3%nat own_traffic_plain Hrt Hne Hk).
Defined.

Lemma Limiter_fresh_after_removal_witness :
  let t := (run own_traffic (New 5 1 0)).2 in
  let c : @call string _ _ Z := CMap syncmap.OClear in
  let t1 := (step c t).2 in
  Forall plain own_traffic ∧
  (c = CMap syncmap.OClear ∨ c = CMap (syncmap.ODelete (Key keyFunc first))) ∧
  ∃ a,
    (Limiter first t1).1 = Some a ∧
    heap t !! a = None ∧
    heap (Limiter first t1).2 !! a = Some (NewLimiter (defaultLimit t) (defaultBurst t)) ∧
    ∀ k, limiters t !! k ≠ Some (Some a).
Proof.
  intros t c t1.
  assert (Hc : c = CMap syncmap.OClear ∨ c = CMap (syncmap.ODelete (Key keyFunc first)))
    by (left; reflexivity).
  split; [exact own_traffic_plain |]. split; [exact Hc |].
  exact (Limiter_fresh_after_removal NewLimiter Wait Transport keyFunc 5 1 0
           own_traffic c first own_traffic_plain Hc).
Defined.

Lemma RoundTrip_registers_witness :
  let t' := (step (CRoundTrip cancelled) fresh).2 in
  RoundTrip cancelled fresh = Some ((None, Some "context canceled"%string), t') ∧
  limiters t' !! Key keyFunc cancelled = Some (Limiter cancelled fresh).1 ∧
  (∀ k p, limiters fresh !! k = Some p → limiters t' !! k = Some p) ∧
  LimiterDefaults t' = LimiterDefaults fresh ∧
  Logger t' = Logger fresh.
Proof.
  intros t'.
  assert (Hrt : RoundTrip cancelled fresh
                = Some ((None, Some "context canceled"%string), t'))
    by (vm_compute; reflexivity).
  split; [exact Hrt |].
  exact (RoundTrip_registers NewLimiter Wait Transport keyFunc cancelled fresh _ t' Hrt).
Defined.

Lemma quiet_by_default_witness :
  Forall (λ c : @call string _ _ Z, ∀ logger, c ≠ CSetLogger logger) traffic ∧
  logged (run traffic (New 5 1 0)).2 = [].
Proof.
  assert (Hall : Forall (λ c : @call string _ _ Z, ∀ logger, c ≠ CSetLogger logger) traffic)
    by (repeat constructor; intros; discriminate).
  split; [exact Hall |].
  exact (quiet_by_default NewLimiter Wait Transport keyFunc 5 1 0 traffic Hall).
Defined.

Lemma RoundTrip_trace_times_witness :
  wait_on Wait (Limiter first fresh).1 first (Limiter first fresh).2
    = Some (None, [(5, 1)], 200000000) ∧
  Logger fresh = Some (Sink 1) ∧
  ∃ answer t' r,
    RoundTrip first fresh = Some (answer, t') ∧
    logged t' = logged fresh ++ [r] ∧
    trace_wait r = Z.quot (200000000 - clock fresh) 1000000 ∧
    trace_resp r = Z.quot ((Transport first 200000000).2 - 200000000) 1000000 ∧
    trace_total r = Z.quot ((Transport first 200000000).2 - clock fresh) 1000000 ∧
    0 ≤ trace_wait r ∧ 0 ≤ trace_resp r ∧
    trace_wait r + trace_resp r ≤ trace_total r ∧
    trace_total r ≤ trace_wait r + trace_resp r + 1.
Proof.
  assert (Hwait : wait_on Wait (Limiter first fresh).1 first (Limiter first fresh).2
                  = Some (None, [(5, 1)], 200000000))
    by (vm_compute; reflexivity).
  assert (Hlogger : Logger fresh = Some (Sink 1)) by reflexivity.
  split; [exact Hwait |]. split; [exact Hlogger |].
  apply (RoundTrip_trace_times NewLimiter Wait Transport keyFunc first fresh
           [(5, 1)] 200000000 1%nat Hwait Hlogger); vm_compute; discriminate.
Defined.

Lemma same_origin_same_limiter_witness :
  let limiter := ratelim.Limiter NewLimiter (TargetOrigin ascii_ToLower) in
  Scheme (Url first) = Scheme (Url shouting) ∧
  ascii_ToLower (Hostname (Url first)) = ascii_ToLower (Hostname (Url shouting)) ∧
  strip_leading_zeros (Port (Url first)) = strip_leading_zeros (Port (Url shouting)) ∧
  (limiter shouting (limiter first fresh).2).1 = (limiter first fresh).1 ∧
  limiters (limiter shouting (limiter first fresh).2).2 = limiters (limiter first fresh).2.
Proof.
  intros limiter.
  assert (H1 : Scheme (Url first) = Scheme (Url shouting)) by reflexivity.
  assert (H2 : ascii_ToLower (Hostname (Url first)) = ascii_ToLower (Hostname (Url shouting)))
    by reflexivity.
  assert (H3 : strip_leading_zeros (Port (Url first))
               = strip_leading_zeros (Port (Url shouting))) by reflexivity.
  split; [exact H1 |]. split; [exact H2 |]. split; [exact H3 |].
  exact (same_origin_same_limiter ascii_ToLower NewLimiter first shouting fresh H1 H2 H3).
Defined.

End MoreExamples.
